(** * Cryptosystème: RSA and ElGamal, key generation, signatures, encryption

    A shallow embedding of the public-key part of the repository:

    - [src/Signature/RSAsignature.py]            (module [RSAsignature])
    - [src/Signature/Elgamelsignature.py]        (module [ElGamalSignature])
    - [src/chiffrement asymétrique/EL GAMAL/gamel.py]  (module [ElGamalCrypto])
    - [src/chiffrement asymétrique/RSA/rsa (1).py]     (module [RSACrypto])

    Python integers are unbounded, so they are [Z]; [//] and [%] are floor
    division and modulus, which is what [Z.div] and [Z.modulo] compute.
    A Python call either returns or raises; calls into [random] are resolved
    by an explicit list of draws. *)

From Stdlib Require Import String Ascii.
From Stdlib Require Import ZArith Lia List Bool.
From Stdlib Require Import Zpow_facts Zmod Zstar Wellfounded.
From Stdlib Require DecimalString DecimalZ Finite.
From Stdlib Require Import Permutation.
From Equations Require Import Equations.
From mathcomp Require ssreflect ssrfun ssrbool eqtype ssrnat seq div choice
  fintype prime finset fingroup cyclic zmodp ssralg finalg finfield.
Import ListNotations.
Local Open Scope Z_scope.

(** ** Outcomes of a Python call *)

Inductive exn : Type :=
| ValueError (msg : string)
| Exception (msg : string)
| ZeroDivisionError.

(** [Starved]: the draws supplied do not decide the run, because they are
    used up or because the next one lies outside the range that the call to
    [random] asks for. It is not a Python outcome. *)
Inductive outcome (A : Type) : Type :=
| Returns (a : A)
| Raises (e : exn)
| Starved.

Arguments Returns {A} a.
Arguments Raises {A} e.
Arguments Starved {A}.

Definition obind {A B : Type} (m : outcome A) (f : A -> outcome B) : outcome B :=
  match m with
  | Returns a => f a
  | Raises e => Raises e
  | Starved => Starved
  end.

(** A computation that calls [random]: it reads a prefix of the draws and
    hands back the rest. *)
Definition rand (A : Type) : Type := list Z -> outcome (A * list Z).

Definition ret {A : Type} (a : A) : rand A := fun tape => Returns (a, tape).

Definition bind {A B : Type} (m : rand A) (f : A -> rand B) : rand B :=
  fun tape =>
    match m tape with
    | Returns (a, tape') => f a tape'
    | Raises e => Raises e
    | Starved => Starved
    end.

Definition lift {A : Type} (m : outcome A) : rand A :=
  fun tape => obind m (fun a => Returns (a, tape)).

Definition raise {A : Type} (e : exn) : rand A := fun _ => Raises e.

Definition starve {A : Type} : rand A := fun _ => Starved.

Declare Scope rand_scope.
Delimit Scope rand_scope with rand.
Notation "x <- m ;; k" := (bind m (fun x => k))
  (at level 61, m at next level, right associativity) : rand_scope.
Notation "x <-- m ;; k" := (obind m (fun x => k))
  (at level 61, m at next level, right associativity).

(** ** The Python built-ins the sources call *)

Module Py.

(** [range(lo, hi)] *)
Definition range (lo hi : Z) : list Z :=
  map (fun i => lo + Z.of_nat i) (seq 0 (Z.to_nat (hi - lo))).

(** [pow(b, e, m)]: three-argument [pow]. A zero modulus raises; a negative
    exponent inverts the base first and raises when it has no inverse; the
    result has the sign of the modulus. *)
Definition pow (b e m : Z) : outcome Z :=
  if m =? 0 then Raises (ValueError "pow() 3rd argument cannot be 0")
  else if e <? 0 then
    if Z.gcd b m =? 1
    then Returns (Zpow_mod (Z.invmod b (Z.abs m)) (- e) m)
    else Raises (ValueError "base is not invertible for the given modulus")
  else Returns (Zpow_mod b e m).

(** [a % b] where the divisor is a run-time value. *)
Definition mod_ (a b : Z) : outcome Z :=
  if b =? 0 then Raises ZeroDivisionError else Returns (a mod b).

(** [random.randint(lo, hi)]: both ends included. *)
Definition randint (lo hi : Z) : rand Z :=
  fun tape =>
    if hi <? lo then Raises (ValueError "empty range for randrange()")
    else match tape with
         | [] => Starved
         | v :: tape' =>
             if (lo <=? v) && (v <=? hi) then Returns (v, tape') else Starved
         end.

(** [random.randrange(lo, hi)]: [hi] excluded. *)
Definition randrange (lo hi : Z) : rand Z :=
  fun tape =>
    if hi <=? lo then Raises (ValueError "empty range for randrange()")
    else match tape with
         | [] => Starved
         | v :: tape' =>
             if (lo <=? v) && (v <? hi) then Returns (v, tape') else Starved
         end.

(** [random.getrandbits(k)] *)
Definition getrandbits (k : Z) : rand Z :=
  fun tape =>
    if k <? 0 then Raises (ValueError "number of bits must be non-negative")
    else match tape with
         | [] => Starved
         | v :: tape' =>
             if (0 <=? v) && (v <? 2 ^ k) then Returns (v, tape') else Starved
         end.


End Py.

(** Recursion on integers that get smaller: the order used by the loops
    below. The instance unfolds by computation for 2^12 nested calls. *)
Definition below (x y : Z) : Prop := 0 <= x < y.

Lemma below_wf : well_founded below.
Proof.
  apply (well_founded_lt_compat Z Z.to_nat).
  unfold below; intros x y H; lia.
Qed.

#[local] Instance below_WellFounded : WellFounded below :=
  Acc_intro_generator 12 below_wf.

(** ** [hashlib.sha256], after FIPS 180-4, on a list of bytes *)

Module Hashlib.

Definition mask32 (x : Z) : Z := x mod 4294967296.

Definition rotr (n x : Z) : Z :=
  Z.lor (Z.shiftr x n) (mask32 (Z.shiftl x (32 - n))).

Definition ch (x y z : Z) : Z :=
  Z.lxor (Z.land x y) (Z.land (Z.lxor x 4294967295) z).

Definition maj (x y z : Z) : Z :=
  Z.lxor (Z.lxor (Z.land x y) (Z.land x z)) (Z.land y z).

Definition bsig0 (x : Z) : Z := Z.lxor (Z.lxor (rotr 2 x) (rotr 13 x)) (rotr 22 x).
Definition bsig1 (x : Z) : Z := Z.lxor (Z.lxor (rotr 6 x) (rotr 11 x)) (rotr 25 x).
Definition ssig0 (x : Z) : Z := Z.lxor (Z.lxor (rotr 7 x) (rotr 18 x)) (Z.shiftr x 3).
Definition ssig1 (x : Z) : Z := Z.lxor (Z.lxor (rotr 17 x) (rotr 19 x)) (Z.shiftr x 10).

(** The largest [x] below [2^bits] with [x^3 <= n]. *)
Fixpoint cube_root (bits : nat) (n x : Z) : Z :=
  match bits with
  | O => x
  | S bits' =>
      let x' := x + 2 ^ Z.of_nat bits' in
      cube_root bits' n (if x' * x' * x' <=? n then x' else x)
  end.

(** The prime numbers below 312: there are 64 of them. *)
Definition first_primes : list Z :=
  filter (fun n => forallb (fun d => negb (n mod d =? 0)) (Py.range 2 n))
    (Py.range 2 312).

(** The round constants: the first 32 bits of the fractional parts of the
    cube roots of the first 64 primes. *)
Definition K : list Z :=
  map (fun q => mask32 (cube_root 40 (q * 2 ^ 96) 0)) first_primes.

(** The initial state: the first 32 bits of the fractional parts of the
    square roots of the first 8 primes. *)
Definition H0 : list Z :=
  map (fun q => mask32 (Z.sqrt (q * 2 ^ 64))) (firstn 8 first_primes).

(** Big-endian value of a list of digits in base [2^w]. *)
Definition be_value (w : Z) (ds : list Z) : Z :=
  fold_left (fun acc d => acc * 2 ^ w + d) ds 0.

(** The [n] low bytes of [x], most significant first. *)
Fixpoint be_bytes (n : nat) (x : Z) : list Z :=
  match n with
  | O => []
  | S n' => be_bytes n' (x / 256) ++ [x mod 256]
  end.

Definition pad (msg : list Z) : list Z :=
  let len := Z.of_nat (length msg) in
  let zeros := Z.to_nat ((55 - len) mod 64) in
  msg ++ [128] ++ repeat 0 zeros ++ be_bytes 8 (8 * len).

(** Cut a list into consecutive pieces of [size] elements. *)
Fixpoint chunks (count size : nat) (l : list Z) : list (list Z) :=
  match count with
  | O => []
  | S c => firstn size l :: chunks c size (skipn size l)
  end.

Definition extend_step (w : list Z) : list Z :=
  let t := length w in
  let at_ (back : nat) := nth (t - back) w 0 in
  w ++ [mask32 (ssig1 (at_ 2%nat) + at_ 7%nat + ssig0 (at_ 15%nat) + at_ 16%nat)].

Definition schedule (block : list Z) : list Z :=
  Nat.iter 48 extend_step (map (be_value 8) (chunks 16 4 block)).

Definition round (st : list Z) (kw : Z * Z) : list Z :=
  match st with
  | [a; b; c; d; e; f; g; h] =>
      let t1 := h + bsig1 e + ch e f g + fst kw + snd kw in
      let t2 := bsig0 a + maj a b c in
      [mask32 (t1 + t2); a; b; c; mask32 (d + t1); e; f; g]
  | _ => st
  end.

Definition compress (st block : list Z) : list Z :=
  let out := fold_left round (combine K (schedule block)) st in
  map (fun p => mask32 (fst p + snd p)) (combine st out).

Definition sha256_words (msg : list Z) : list Z :=
  let padded := pad msg in
  fold_left compress (chunks (length padded / 64) 64 padded) H0.

(** [int.from_bytes(hashlib.sha256(msg).digest(), byteorder='big')] *)
Definition sha256_int (msg : list Z) : Z := be_value 32 (sha256_words msg).

Definition bytes_of_string (s : string) : list Z :=
  map (fun c => Z.of_N (N_of_ascii c)) (list_ascii_of_string s).

End Hashlib.

(** ** Code that several of the source files repeat word for word *)

(** [gcd(a, b)] of [RSAsignature.py] and [Elgamelsignature.py]:
    [while b: a, b = b, a % b] then [return a]. *)
Equations? gcd (a b : Z) : Z by wf (Z.abs b) below :=
  gcd a b with Z.eq_dec b 0 := {
    | left _ => a
    | right _ => gcd b (a mod b) }.
Proof.
  unfold below. pose proof (Z.mod_bound_or a b n). lia.
Qed.

(** [extended_gcd(a, b)], the same recursive function in all three files that
    have it (nested inside [mod_inverse] in [RSAsignature.py]). Python's
    recursion limit is not modelled. *)
Equations? extended_gcd (a b : Z) : Z * Z * Z by wf (Z.abs a) below :=
  extended_gcd a b with Z.eq_dec a 0 := {
    | left _ => (b, 0, 1)
    | right _ =>
        let '(g, x1, y1) := extended_gcd (b mod a) a in
        (g, y1 - (b / a) * x1, x1) }.
Proof.
  unfold below. pose proof (Z.mod_bound_or b a n). lia.
Qed.

(** The inner loop of [prime_factors]:
    [while n % i == 0: factors.append(i); n //= i].
    [prime_factors] enters it with [1 < i] and [0 < n] only ([i] starts at 2
    and [i * i <= n]); elsewhere the Python loop may not stop, and the model
    leaves the state as it is. *)
Equations? divide_out (i n : Z) (factors : list Z) : Z * list Z
  by wf (Z.abs n) below :=
  divide_out i n factors
    with Sumbool.sumbool_of_bool ((1 <? i) && (0 <? n) && (n mod i =? 0)) := {
    | left _ => divide_out i (n / i) (factors ++ [i])
    | right _ => (n, factors) }.
Proof.
  unfold below.
  apply andb_prop in e as [e _]. apply andb_prop in e as [e1 e2].
  apply Z.ltb_lt in e1, e2.
  pose proof (Z.div_lt n i). pose proof (Z.div_pos n i). lia.
Qed.

Lemma divide_out_le (i n : Z) (factors : list Z) :
  0 <= n -> 0 <= fst (divide_out i n factors) <= n.
Proof.
  funelim (divide_out i n factors); simpl.
  - intros Hn. clear Heq Heqcall.
    apply andb_prop in e as [e _]. apply andb_prop in e as [e1 e2].
    apply Z.ltb_lt in e1, e2.
    pose proof (Z.div_lt n i). pose proof (Z.div_pos n i).
    specialize (H ltac:(lia)). lia.
  - lia.
Qed.

Definition inspect {A : Type} (a : A) : {b : A | a = b} := exist _ a eq_refl.

(** The outer loop of [prime_factors]:
    [while i * i <= n: <inner loop>; i += 1]. *)
Equations? trial_division (i n : Z) (factors : list Z) : Z * list Z
  by wf (Z.max 0 (n + 1 - i)) below :=
  trial_division i n factors with Sumbool.sumbool_of_bool (i * i <=? n) := {
    | left _ with inspect (divide_out i n factors) := {
        | exist _ (n', factors') E => trial_division (i + 1) n' factors' }
    | right _ => (n, factors) }.
Proof.
  unfold below. apply Z.leb_le in e.
  pose proof (divide_out_le i n factors ltac:(nia)) as H.
  rewrite E in H; simpl in H. nia.
Qed.

(** [list(set(factors))]: the distinct elements. Python fixes neither the
    order of a set nor of the list made from it; this is one such order. *)
Definition list_set (l : list Z) : list Z := nodup Z.eq_dec l.

(** [prime_factors(n)] of [Elgamelsignature.py] and [gamel.py]. *)
Definition prime_factors (n : Z) : list Z :=
  let '(n', factors) := trial_division 2 n [] in
  list_set (if 1 <? n' then factors ++ [n'] else factors).

(** [for x in l: if test(x): return x], where the test may raise. *)
Fixpoint first_such (test : Z -> outcome bool) (l : list Z) : outcome (option Z) :=
  match l with
  | [] => Returns None
  | x :: l' =>
      b <-- test x ;;
      if b then Returns (Some x) else first_such test l'
  end.

(** [[f(x) for x in l]], where [f] may raise. *)
Fixpoint for_each {A B : Type} (f : A -> outcome B) (l : list A) : outcome (list B) :=
  match l with
  | [] => Returns []
  | a :: l' => b <-- f a ;; bs <-- for_each f l' ;; Returns (b :: bs)
  end.

(** ** [src/Signature/RSAsignature.py] *)

Module RSAsignature.

Local Open Scope rand_scope.

(** [while d % 2 == 0: d //= 2; r += 1], on the binary digits of [d]. *)
Fixpoint halve (d : positive) (r : nat) : positive * nat :=
  match d with
  | xO d' => halve d' (S r)
  | _ => (d, r)
  end.

(** The loop above for an integer [d]. From [d = 0] the Python loop never
    leaves; [is_prime] reaches it with [d = n - 1 >= 4] only. *)
Definition halve_loop (d : Z) (r : nat) : Z * nat :=
  match d with
  | Z0 => (0, r)
  | Zpos q => let '(q', r') := halve q r in (Zpos q', r')
  | Zneg q => let '(q', r') := halve q r in (Zneg q', r')
  end.

(** [for _ in range(count): x = pow(x, 2, n); if x == n - 1: break]
    followed by [else: return False]. The result tells whether [break] was
    taken. *)
Fixpoint squarings (count : nat) (x n : Z) : outcome bool :=
  match count with
  | O => Returns false
  | S count' =>
      x' <-- Py.pow x 2 n ;;
      if x' =? n - 1 then Returns true else squarings count' x' n
  end.

(** [for _ in range(k): ...] of [is_prime]. *)
Fixpoint witness_rounds (k : nat) (n d : Z) (r : nat) : rand bool :=
  match k with
  | O => ret true
  | S k' =>
      a <- Py.randint 2 (n - 2) ;;
      x <- lift (Py.pow a d n) ;;
      if (x =? 1) || (x =? n - 1) then witness_rounds k' n d r
      else
        broke <- lift (squarings (r - 1) x n) ;;
        if broke then witness_rounds k' n d r else ret false
  end.

Definition is_prime (n : Z) (k : nat) : rand bool :=
  if (n <=? 1) || (n =? 4) then ret false
  else if n <=? 3 then ret true
  else
    let '(d, r) := halve_loop (n - 1) 0 in
    witness_rounds k n d r.

(** [while True: p = random.getrandbits(bits); p |= 1; if is_prime(p): return p].
    Every turn of the loop takes a draw, so [fuel] turns are enough for a
    list of fewer than [fuel] draws. *)
Fixpoint generate_prime_loop (fuel : nat) (bits : Z) : rand Z :=
  match fuel with
  | O => starve
  | S fuel' =>
      p <- Py.getrandbits bits ;;
      let p := Z.lor p 1 in
      ok <- is_prime p 5 ;;
      if ok then ret p else generate_prime_loop fuel' bits
  end.

Definition generate_prime (bits : Z) : rand Z :=
  fun tape => generate_prime_loop (S (length tape)) bits tape.

Definition mod_inverse (e phi : Z) : outcome Z :=
  let '(g, x, y) := extended_gcd e phi in
  if negb (g =? 1) then Raises (Exception "L'inverse modulaire n'existe pas")
  else Py.mod_ x phi.

(** [while gcd(e, phi) != 1: e = random.randrange(2, phi)] *)
Fixpoint choose_e (fuel : nat) (e phi : Z) : rand Z :=
  if gcd e phi =? 1 then ret e
  else match fuel with
       | O => starve
       | S fuel' => e' <- Py.randrange 2 phi ;; choose_e fuel' e' phi
       end.

(** The dictionary [{"public": (e, n), "private": (d, n)}]. *)
Record keypair : Type := { public : Z * Z; private : Z * Z }.

(** The two values drawn by [generate_keypair], which it does not return. *)
Definition draw_primes (bits : Z) : rand (Z * Z) :=
  p <- generate_prime (bits / 2) ;;
  q <- generate_prime (bits / 2) ;;
  ret (p, q).

Definition generate_keypair (bits : Z) : rand keypair :=
  pq <- draw_primes bits ;;
  let '(p, q) := pq in
  let n := p * q in
  let phi := (p - 1) * (q - 1) in
  e <- (fun tape => choose_e (length tape) 65537 phi tape) ;;
  d <- lift (mod_inverse e phi) ;;
  ret {| public := (e, n); private := (d, n) |}.

(** A message is its bytes: a [str] message is first encoded in UTF-8. *)
Definition hash_message (message : string) : Z :=
  Hashlib.sha256_int (Hashlib.bytes_of_string message).

Definition sign (message : string) (private_key : Z * Z) : outcome Z :=
  let '(d, n) := private_key in
  let h := hash_message message in
  if h >=? n
  then Raises (ValueError "Le hash du message est trop grand pour cette cle RSA")
  else Py.pow h d n.

Definition verify (message : string) (signature : Z) (public_key : Z * Z)
  : outcome bool :=
  let '(e, n) := public_key in
  let h := hash_message message in
  decrypted_hash <-- Py.pow signature e n ;;
  Returns (h =? decrypted_hash).

End RSAsignature.

(** ** [src/Signature/Elgamelsignature.py] *)

Module ElGamalSignature.

Local Open Scope rand_scope.

(** The same text as [is_prime] of [RSAsignature.py]. *)
Definition is_prime : Z -> nat -> rand bool := RSAsignature.is_prime.

(** [while True: p = random.randint(min_val, max_val); if p % 2 == 0: p += 1;
    if is_prime(p): return p] *)
Fixpoint generate_prime_loop (fuel : nat) (min_val max_val : Z) : rand Z :=
  match fuel with
  | O => starve
  | S fuel' =>
      p <- Py.randint min_val max_val ;;
      let p := if p mod 2 =? 0 then p + 1 else p in
      ok <- is_prime p 5 ;;
      if ok then ret p else generate_prime_loop fuel' min_val max_val
  end.

Definition generate_prime (min_val max_val : Z) : rand Z :=
  fun tape => generate_prime_loop (S (length tape)) min_val max_val tape.

(** [pow(g, (p-1) // 2, p) != 1 and pow(g, p-1, p) == 1] *)
Definition half_order_check (p g : Z) : outcome bool :=
  a <-- Py.pow g ((p - 1) / 2) p ;;
  if negb (a =? 1) then b <-- Py.pow g (p - 1) p ;; Returns (b =? 1)
  else Returns false.

Definition find_generator (p : Z) : outcome Z :=
  if p =? 2 then Returns 1
  else
    found <-- first_such (half_order_check p) (Py.range 2 p) ;;
    match found with
    | Some g => Returns g
    | None => Returns 2
    end.

Definition mod_inverse (a m : Z) : outcome Z :=
  let '(gcd, x, _) := extended_gcd a m in
  if negb (gcd =? 1) then Raises (Exception "Modular inverse does not exist")
  else
    x' <-- Py.mod_ x m ;;
    Py.mod_ (x' + m) m.

Definition hash_message : string -> Z := RSAsignature.hash_message.

(** The dictionary with the entries ['p'], ['g'], ['y'] and ['x']. *)
Record keys : Type := { p : Z; g : Z; y : Z; x : Z }.

Definition generate_keypair (min_prime max_prime : Z) : rand keys :=
  p <- generate_prime min_prime max_prime ;;
  g <- lift (find_generator p) ;;
  x <- Py.randint 2 (p - 2) ;;
  y <- lift (Py.pow g x p) ;;
  ret {| p := p; g := g; y := y; x := x |}.

(** [while True: k = random.randint(2, p-2); if gcd(k, p-1) == 1: break] *)
Fixpoint draw_k (fuel : nat) (p : Z) : rand Z :=
  match fuel with
  | O => starve
  | S fuel' =>
      k <- Py.randint 2 (p - 2) ;;
      if gcd k (p - 1) =? 1 then ret k else draw_k fuel' p
  end.

Definition sign (message : string) (keys : keys) : rand (Z * Z) :=
  let '(p, g, x) := (p keys, g keys, x keys) in
  h <- lift (Py.mod_ (hash_message message) p) ;;
  k <- (fun tape => draw_k (S (length tape)) p tape) ;;
  r <- lift (Py.pow g k p) ;;
  k_inv <- lift (mod_inverse k (p - 1)) ;;
  s <- lift (Py.mod_ ((h - x * r) * k_inv) (p - 1)) ;;
  ret (r, s).

(** What [verify] computes on the way, in order. *)
Inductive operation : Type :=
| Hashed (message : string)
| Reduced (a m : Z)
| Powered (b e m : Z).

Definition logged (A : Type) : Type := list operation * outcome A.

Definition lret {A : Type} (a : A) : logged A := ([], Returns a).

Definition lbind {A B : Type} (m : logged A) (f : A -> logged B) : logged B :=
  match m with
  | (log, Returns a) => let '(log', o) := f a in (log ++ log', o)
  | (log, Raises e) => (log, Raises e)
  | (log, Starved) => (log, Starved)
  end.

Definition logged_hash (message : string) : logged Z :=
  ([Hashed message], Returns (hash_message message)).

Definition logged_mod (a m : Z) : logged Z := ([Reduced a m], Py.mod_ a m).

Definition logged_pow (b e m : Z) : logged Z := ([Powered b e m], Py.pow b e m).

Definition verify_logged (message : string) (signature : Z * Z) (keys : keys)
  : logged bool :=
  let '(p, g, y) := (p keys, g keys, y keys) in
  let '(r, s) := signature in
  if (r <=? 0) || (r >=? p) || (s <=? 0) || (s >=? p - 1) then lret false
  else
    lbind (logged_hash message) (fun digest =>
    lbind (logged_mod digest p) (fun h =>
    lbind (logged_pow g h p) (fun left =>
    lbind (logged_pow y r p) (fun yr =>
    lbind (logged_pow r s p) (fun rs =>
    lbind (logged_mod (yr * rs) p) (fun right =>
    lret (left =? right))))))).

Definition verify (message : string) (signature : Z * Z) (keys : keys)
  : outcome bool :=
  snd (verify_logged message signature keys).

End ElGamalSignature.

(** ** [src/chiffrement asymétrique/EL GAMAL/gamel.py] *)

Module ElGamalCrypto.

Local Open Scope rand_scope.

(** Same loops as in the signature files; the tests before them differ. *)
Definition is_prime (n : Z) (k : nat) : rand bool :=
  if n <? 2 then ret false
  else if (n =? 2) || (n =? 3) then ret true
  else if n mod 2 =? 0 then ret false
  else
    let '(d, r) := RSAsignature.halve_loop (n - 1) 0 in
    RSAsignature.witness_rounds k n d r.

(** [while True: candidate = random.randint(min_val, max_val);
    if candidate % 2 == 0: candidate += 1;
    if is_prime(candidate): return candidate] *)
Fixpoint generate_prime_loop (fuel : nat) (min_val max_val : Z) : rand Z :=
  match fuel with
  | O => starve
  | S fuel' =>
      candidate <- Py.randint min_val max_val ;;
      let candidate := if candidate mod 2 =? 0 then candidate + 1 else candidate in
      ok <- is_prime candidate 5 ;;
      if ok then ret candidate else generate_prime_loop fuel' min_val max_val
  end.

Definition generate_prime (min_val max_val : Z) : rand Z :=
  fun tape => generate_prime_loop (S (length tape)) min_val max_val tape.

(** [while exponent > 0: if exponent % 2 == 1: result = (result * base) % modulus;
    exponent = exponent >> 1; base = (base * base) % modulus],
    on the binary digits of a positive exponent. *)
Fixpoint mod_pow_loop (exponent : positive) (result base modulus : Z) : Z :=
  match exponent with
  | xH => (result * base) mod modulus
  | xO exponent' =>
      mod_pow_loop exponent' result ((base * base) mod modulus) modulus
  | xI exponent' =>
      mod_pow_loop exponent' ((result * base) mod modulus)
        ((base * base) mod modulus) modulus
  end.

Definition mod_pow (base exponent modulus : Z) : outcome Z :=
  if modulus =? 1 then Returns 0
  else
    base <-- Py.mod_ base modulus ;;
    match exponent with
    | Zpos e => Returns (mod_pow_loop e 1 base modulus)
    | _ => Returns 1
    end.

(** Returns Python's [None] when there is no inverse. *)
Definition mod_inverse (a m : Z) : outcome (option Z) :=
  let '(gcd, x, _) := extended_gcd a m in
  if negb (gcd =? 1) then Returns None
  else
    x' <-- Py.mod_ x m ;;
    r <-- Py.mod_ (x' + m) m ;;
    Returns (Some r).

(** [for factor in factors: if mod_pow(g, phi // factor, p) == 1:
    is_generator = False; break]; the result is [is_generator]. *)
Fixpoint passes_factors (g phi p : Z) (factors : list Z) : outcome bool :=
  match factors with
  | [] => Returns true
  | factor :: factors' =>
      v <-- mod_pow g (phi / factor) p ;;
      if v =? 1 then Returns false else passes_factors g phi p factors'
  end.

Definition find_generator (p : Z) : outcome Z :=
  let phi := p - 1 in
  let factors := prime_factors phi in
  found <-- first_such (fun g => passes_factors g phi p factors) (Py.range 2 p) ;;
  match found with
  | Some g => Returns g
  | None => Returns 2
  end.

(** A [str] is the list of its code points, so that [ord] and
    [text_to_numbers] do nothing. *)
Definition text_to_numbers (text : list Z) : list Z := text.


Record keys : Type := { p : Z; g : Z; y : Z; x : Z }.

Definition generate_elgamal_keys (min_prime max_prime : Z) : rand keys :=
  p <- generate_prime min_prime max_prime ;;
  g <- lift (find_generator p) ;;
  x <- Py.randint 1 (p - 2) ;;
  y <- lift (mod_pow g x p) ;;
  ret {| p := p; g := g; y := y; x := x |}.

(** The loop [for m in message_numbers] of [encrypt_elgamal]. *)
Fixpoint encrypt_units (message_numbers : list Z) (p g y : Z) : rand (list (Z * Z)) :=
  match message_numbers with
  | [] => ret []
  | m :: rest =>
      if m >=? p then raise (ValueError "Caractere trop grand pour p")
      else
        k <- Py.randint 1 (p - 2) ;;
        c1 <- lift (mod_pow g k p) ;;
        yk <- lift (mod_pow y k p) ;;
        c2 <- lift (Py.mod_ (m * yk) p) ;;
        ciphertext <- encrypt_units rest p g y ;;
        ret ((c1, c2) :: ciphertext)
  end.

Definition encrypt_elgamal (message : list Z) (keys : keys) : rand (list (Z * Z)) :=
  let '(p, g, y) := (p keys, g keys, y keys) in
  encrypt_units (text_to_numbers message) p g y.



End ElGamalCrypto.

(** ** Text: [str], [int], [','.join], [split(',')] and [base64] *)

Module Text.

(** [str(z)] for an integer. *)
Definition str (z : Z) : string :=
  DecimalString.NilZero.string_of_int (Z.to_int z).

(** [int(s)] for an optional minus sign followed by decimal digits. Python
    also reads surrounding blanks, a plus sign, underscores and non-ASCII
    digits; those texts raise here. *)
Definition int (s : string) : outcome Z :=
  match DecimalString.NilZero.int_of_string s with
  | Some d => Returns (Z.of_int d)
  | None => Raises (ValueError "invalid literal for int() with base 10")
  end.

(** [','.join(l)] *)
Fixpoint join (l : list string) : string :=
  match l with
  | [] => EmptyString
  | [s] => s
  | s :: l' => (s ++ String "," (join l'))%string
  end.

(** [s.split(',')] *)
Fixpoint split (s : string) : list string :=
  match s with
  | EmptyString => [EmptyString]
  | String c s' =>
      if Ascii.eqb c "," then EmptyString :: split s'
      else match split s' with
           | field :: fields => String c field :: fields
           | [] => [String c EmptyString]
           end
  end.

(** The code points of a text made of ASCII characters. *)
Definition codes (s : string) : list Z :=
  map (fun c => Z.of_N (N_of_ascii c)) (list_ascii_of_string s).

Definition alphabet : list ascii :=
  list_ascii_of_string
    "ABCDEFGHIJKLMNOPQRSTUVWXYZabcdefghijklmnopqrstuvwxyz0123456789+/".

Definition sextet_char (i : Z) : ascii := nth (Z.to_nat i) alphabet "="%char.

Fixpoint index_of (c : ascii) (l : list ascii) (i : Z) : option Z :=
  match l with
  | [] => None
  | c' :: l' => if Ascii.eqb c c' then Some i else index_of c l' (i + 1)
  end.

Definition char_sextet (c : ascii) : option Z := index_of c alphabet 0.

Definition byte_of (c : ascii) : Z := Z.of_N (N_of_ascii c).

Definition char_of (b : Z) : ascii := ascii_of_N (Z.to_N b).

(** [base64.b64encode] on the bytes of [s]. *)
Fixpoint b64encode_list (bs : list Z) : list ascii :=
  match bs with
  | [] => []
  | [a] => [sextet_char (a / 4); sextet_char (a mod 4 * 16); "="%char; "="%char]
  | [a; b] =>
      [sextet_char (a / 4); sextet_char (a mod 4 * 16 + b / 16);
       sextet_char (b mod 16 * 4); "="%char]
  | a :: b :: c :: rest =>
      sextet_char (a / 4) :: sextet_char (a mod 4 * 16 + b / 16)
      :: sextet_char (b mod 16 * 4 + c / 64) :: sextet_char (c mod 64)
      :: b64encode_list rest
  end.

Definition b64encode (s : string) : string :=
  string_of_list_ascii (b64encode_list (map byte_of (list_ascii_of_string s))).

(** [base64.b64decode], strict: groups of four characters of the alphabet,
    padding in the last group only. Python skips characters outside the
    alphabet instead of raising. *)
Fixpoint b64decode_list (cs : list ascii) : option (list Z) :=
  match cs with
  | [] => Some []
  | c0 :: c1 :: c2 :: c3 :: rest =>
      match char_sextet c0, char_sextet c1 with
      | Some i0, Some i1 =>
          let a := i0 * 4 + i1 / 16 in
          match char_sextet c2, char_sextet c3, rest with
          | Some i2, Some i3, _ =>
              match b64decode_list rest with
              | Some bs =>
                  Some (a :: i1 mod 16 * 16 + i2 / 4 :: i2 mod 4 * 64 + i3 :: bs)
              | None => None
              end
          | Some i2, None, [] =>
              if Ascii.eqb c3 "=" then Some [a; i1 mod 16 * 16 + i2 / 4] else None
          | None, None, [] =>
              if Ascii.eqb c2 "=" && Ascii.eqb c3 "=" then Some [a] else None
          | _, _, _ => None
          end
      | _, _ => None
      end
  | _ => None
  end.

(** [base64.b64decode(s).decode('utf-8')] for ASCII results; other bytes are
    outside the model and raise here. *)
Definition b64decode (s : string) : outcome string :=
  match b64decode_list (list_ascii_of_string s) with
  | Some bs =>
      if forallb (fun b => b <? 128) bs
      then Returns (string_of_list_ascii (map char_of bs))
      else Raises (ValueError "'utf-8' codec can't decode")
  | None => Raises (ValueError "Incorrect padding")
  end.

End Text.

(** ** [src/chiffrement asymétrique/RSA/rsa (1).py] *)

Module RSACrypto.

Local Open Scope rand_scope.

(** [sympy.isprime]: an exact primality test, here by trial division. *)
Definition isprime (n : Z) : bool :=
  (1 <? n) && forallb (fun d => negb (n mod d =? 0)) (Py.range 2 n).

(** [while True: num = random.randint(start, end); if isprime(num): return num] *)
Fixpoint generate_large_prime_loop (fuel : nat) (start end_ : Z) : rand Z :=
  match fuel with
  | O => starve
  | S fuel' =>
      num <- Py.randint start end_ ;;
      if isprime num then ret num else generate_large_prime_loop fuel' start end_
  end.

Definition generate_large_prime (start end_ : Z) : rand Z :=
  fun tape => generate_large_prime_loop (S (length tape)) start end_ tape.

(** [while prime2 == prime1: prime2 = generate_large_prime(1000, 10000)] *)
Fixpoint redraw_prime2 (fuel : nat) (prime1 prime2 : Z) : rand Z :=
  if prime2 =? prime1 then
    match fuel with
    | O => starve
    | S fuel' =>
        prime2' <- generate_large_prime 1000 10000 ;;
        redraw_prime2 fuel' prime1 prime2'
    end
  else ret prime2.

(** [while math.gcd(e, phi) != 1: e = random.randint(2, phi - 1)] *)
Fixpoint redraw_e (fuel : nat) (e phi : Z) : rand Z :=
  if negb (Z.gcd e phi =? 1) then
    match fuel with
    | O => starve
    | S fuel' => e' <- Py.randint 2 (phi - 1) ;; redraw_e fuel' e' phi
    end
  else ret e.

Definition mod_inverse (a m : Z) : outcome Z :=
  let '(g, x, y) := extended_gcd a m in
  if negb (g =? 1) then Raises (Exception "L'inverse modulaire n'existe pas")
  else Py.mod_ x m.

(** The two primes that [generate_rsa_keys] settles on. *)
Definition draw_primes : rand (Z * Z) :=
  prime1 <- generate_large_prime 1000 10000 ;;
  prime2 <- generate_large_prime 1000 10000 ;;
  prime2 <- (fun tape => redraw_prime2 (length tape) prime1 prime2 tape) ;;
  ret (prime1, prime2).

(** Returns the pair [(e, n), (d, n)]. *)
Definition generate_rsa_keys : rand ((Z * Z) * (Z * Z)) :=
  primes <- draw_primes ;;
  let '(prime1, prime2) := primes in
  let n := prime1 * prime2 in
  let phi := (prime1 - 1) * (prime2 - 1) in
  e <- (if negb (Z.gcd 65537 phi =? 1)
        then e <- Py.randint 2 (phi - 1) ;;
             (fun tape => redraw_e (length tape) e phi tape)
        else ret 65537) ;;
  d <- lift (mod_inverse e phi) ;;
  ret ((e, n), (d, n)).

(** The plaintext is the list of its code points. *)
Definition encrypt_rsa (plaintext : list Z) (public_key : Z * Z) : outcome string :=
  let '(e, n) := public_key in
  if existsb (fun char => char >=? n) plaintext
  then Raises (ValueError "Le message contient des caracteres trop grands pour n")
  else
    let message_nums := plaintext in
    encrypted_nums <-- for_each (fun m => Py.pow m e n) message_nums ;;
    let encrypted_str := Text.join (map Text.str encrypted_nums) in
    Returns (Text.b64encode encrypted_str).

(** [chr(num)] inside the valid range, the text ["[num]"] outside. *)
Definition render (num : Z) : list Z :=
  if (0 <=? num) && (num <=? 1114111) then [num]
  else Text.codes ("[" ++ Text.str num ++ "]")%string.

(** [try: ... except Exception as e: raise ValueError(...)] *)
Definition reraise {A : Type} (m : outcome A) : outcome A :=
  match m with
  | Raises _ => Raises (ValueError "Echec du dechiffrement")
  | _ => m
  end.

Definition decrypt_rsa (ciphertext : string) (private_key : Z * Z)
  : outcome (list Z) :=
  let '(d, n) := private_key in
  reraise (
    decoded_str <-- Text.b64decode ciphertext ;;
    encrypted_nums <-- for_each Text.int (Text.split decoded_str) ;;
    decrypted_nums <-- for_each (fun c => Py.pow c d n) encrypted_nums ;;
    Returns (concat (map render decrypted_nums))).

End RSACrypto.

(** ** Keys: files, components and serialised signatures *)

(** [try: ... except Exception as e: print(...); return None] around code
    that calls [random]: the value returned, and the draws left when there
    is one. *)
Definition caught {A : Type} (m : rand A) : list Z -> outcome (option (A * list Z)) :=
  fun tape =>
    match m tape with
    | Returns r => Returns (Some r)
    | Raises _ => Returns None
    | Starved => Starved
    end.

Module Json.

(** The dictionaries that [save_keys] writes and [load_keys_from_files]
    reads: names with integer values. A file holds the document that
    [json.dump] wrote to it, and [json.load] gives that document back. *)
Definition object : Type := list (string * Z).

(** [o[key]]; [None] stands for [KeyError]. *)
Fixpoint get (key : string) (o : object) : option Z :=
  match o with
  | [] => None
  | (k, v) :: o' => if String.eqb key k then Some v else get key o'
  end.

(** The files, by path, most recently written first. *)
Definition files : Type := list (string * object).

(** [with open(path, "w") as f: json.dump(o, f)] *)
Definition dump (o : object) (path : string) (fs : files) : files :=
  (path, o) :: fs.

(** [with open(path, "r") as f: json.load(f)]; [None] stands for
    [FileNotFoundError]. *)
Fixpoint load (path : string) (fs : files) : option object :=
  match fs with
  | [] => None
  | (path', o) :: fs' => if String.eqb path path' then Some o else load path fs'
  end.

End Json.

(** The rest of [src/Signature/RSAsignature.py]. *)
Module RSAsignatureKeys.

Import RSAsignature.

Definition save_keys (keys : keypair) (private_key_file public_key_file : string)
  (fs : Json.files) : Json.files :=
  let '(e, n) := public keys in
  let '(d, _) := private keys in
  let private_key_data := [("d"%string, d); ("n"%string, n)] in
  let public_key_data := [("e"%string, e); ("n"%string, n)] in
  Json.dump public_key_data public_key_file
    (Json.dump private_key_data private_key_file fs).

(** Every exception is caught and gives [None]. *)
Definition load_keys_from_files (private_key_file public_key_file : string)
  (fs : Json.files) : option keypair :=
  match Json.load private_key_file fs with
  | None => None
  | Some private_key_data =>
      match Json.load public_key_file fs with
      | None => None
      | Some public_key_data =>
          match Json.get "e" public_key_data, Json.get "n" public_key_data,
                Json.get "d" private_key_data, Json.get "n" private_key_data with
          | Some e, Some n, Some d, Some n' =>
              Some {| public := (e, n); private := (d, n') |}
          | _, _, _, _ => None
          end
      end
  end.

(** The result of the test that [display_key_components] prints:
    [decrypted == test_value]. *)
Definition display_key_components (keys : keypair) : outcome bool :=
  let '(e, n) := public keys in
  let '(d, _) := private keys in
  let test_value := 42 in
  encrypted <-- Py.pow test_value e n ;;
  decrypted <-- Py.pow encrypted d n ;;
  Returns (decrypted =? test_value).

(** [x.bit_length()] *)
Definition bit_length (x : Z) : Z :=
  if x =? 0 then 0 else Z.log2 (Z.abs x) + 1.

(** [x.to_bytes(length, byteorder='big')] for [0 <= length]; [None] stands
    for [OverflowError]. *)
Definition to_bytes (x length : Z) : option (list Z) :=
  if (x <? 0) || (2 ^ (8 * length) <=? x) then None
  else Some (Hashlib.be_bytes (Z.to_nat length) x).

(** [int.from_bytes(bs, byteorder='big')] *)
Definition from_bytes (bs : list Z) : Z := Hashlib.be_value 8 bs.

(** [None] stands for the [OverflowError] of [to_bytes]. *)
Definition serialize_signature (signature : Z) : option string :=
  match to_bytes signature ((bit_length signature + 7) / 8) with
  | Some signature_bytes =>
      Some (string_of_list_ascii (Text.b64encode_list signature_bytes))
  | None => None
  end.

Definition deserialize_signature (signature_str : string) : outcome Z :=
  match Text.b64decode_list (list_ascii_of_string signature_str) with
  | Some signature_bytes => Returns (from_bytes signature_bytes)
  | None => Raises (ValueError "Format de signature invalide")
  end.

End RSAsignatureKeys.

(** The rest of [src/Signature/Elgamelsignature.py]. *)
Module ElGamalSignatureKeys.

Import ElGamalSignature.
Local Open Scope rand_scope.

Definition save_keys (keys : keys) (private_key_file public_key_file : string)
  (fs : Json.files) : Json.files :=
  let private_key_data :=
    [("p"%string, p keys); ("g"%string, g keys); ("x"%string, x keys)] in
  let public_key_data :=
    [("p"%string, p keys); ("g"%string, g keys); ("y"%string, y keys)] in
  Json.dump public_key_data public_key_file
    (Json.dump private_key_data private_key_file fs).

Definition load_keys_from_files (private_key_file public_key_file : string)
  (fs : Json.files) : option keys :=
  match Json.load private_key_file fs with
  | None => None
  | Some private_key_data =>
      match Json.load public_key_file fs with
      | None => None
      | Some public_key_data =>
          match Json.get "p" private_key_data, Json.get "p" public_key_data,
                Json.get "g" private_key_data, Json.get "g" public_key_data,
                Json.get "x" private_key_data, Json.get "y" public_key_data with
          | Some p, Some p', Some g, Some g', Some x, Some y =>
              if negb (p =? p') || negb (g =? g') then None
              else Some {| p := p; g := g; y := y; x := x |}
          | _, _, _, _, _, _ => None
          end
      end
  end.

(** The body of the [try] of [create_keys_from_components]. *)
Definition create_keys (p g : Z) (x y : option Z) : rand keys :=
  ok <- is_prime p 5 ;;
  if negb ok then raise (ValueError "p doit etre un nombre premier")
  else if (g <=? 1) || (g >=? p)
  then raise (ValueError "g doit etre dans l'intervalle [2, p-1]")
  else
    match x, y with
    | Some x, Some y =>
        calculated_y <- lift (Py.pow g x p) ;;
        if negb (calculated_y =? y)
        then raise (ValueError "Les valeurs x et y ne sont pas coherentes")
        else ret {| p := p; g := g; y := y; x := x |}
    | Some x, None =>
        if (x <=? 0) || (x >=? p)
        then raise (ValueError "x doit etre dans l'intervalle [1, p-1]")
        else
          y <- lift (Py.pow g x p) ;;
          ret {| p := p; g := g; y := y; x := x |}
    | None, Some y =>
        if (y <=? 0) || (y >=? p)
        then raise (ValueError "y doit etre dans l'intervalle [1, p-1]")
        else
          x <- Py.randint 1 (p - 2) ;;
          y_calc <- lift (Py.pow g x p) ;;
          ret {| p := p; g := g; y := y_calc; x := x |}
    | None, None =>
        x <- Py.randint 1 (p - 2) ;;
        y <- lift (Py.pow g x p) ;;
        ret {| p := p; g := g; y := y; x := x |}
    end.

Definition create_keys_from_components (p g : Z) (x y : option Z)
  : list Z -> outcome (option (keys * list Z)) :=
  caught (create_keys p g x y).

(** The result of the check that [display_key_components] prints:
    [y_calc == keys['y']]. *)
Definition display_key_components (keys : keys) : outcome bool :=
  y_calc <-- Py.pow (g keys) (x keys) (p keys) ;;
  Returns (y_calc =? y keys).

End ElGamalSignatureKeys.

(** The rest of [src/chiffrement asymétrique/EL GAMAL/gamel.py]. *)
Module ElGamalCryptoKeys.

Import ElGamalCrypto.
Local Open Scope rand_scope.

Definition save_keys (keys : keys) (private_key_file public_key_file : string)
  (fs : Json.files) : Json.files :=
  let private_key_data :=
    [("p"%string, p keys); ("g"%string, g keys); ("x"%string, x keys)] in
  let public_key_data :=
    [("p"%string, p keys); ("g"%string, g keys); ("y"%string, y keys)] in
  Json.dump public_key_data public_key_file
    (Json.dump private_key_data private_key_file fs).

Definition load_keys_from_files (private_key_file public_key_file : string)
  (fs : Json.files) : option keys :=
  match Json.load private_key_file fs with
  | None => None
  | Some private_key_data =>
      match Json.load public_key_file fs with
      | None => None
      | Some public_key_data =>
          match Json.get "p" private_key_data, Json.get "p" public_key_data,
                Json.get "g" private_key_data, Json.get "g" public_key_data,
                Json.get "x" private_key_data, Json.get "y" public_key_data with
          | Some p, Some p', Some g, Some g', Some x, Some y =>
              if negb (p =? p') || negb (g =? g') then None
              else Some {| p := p; g := g; y := y; x := x |}
          | _, _, _, _, _, _ => None
          end
      end
  end.

(** The body of the [try] of [create_keys_from_components]. *)
Definition create_keys (p g : Z) (x y : option Z) : rand keys :=
  ok <- is_prime p 5 ;;
  if negb ok then raise (ValueError "p doit etre un nombre premier")
  else if (g <=? 1) || (g >=? p)
  then raise (ValueError "g doit etre dans l'intervalle [2, p-1]")
  else
    match x, y with
    | Some x, Some y =>
        calculated_y <- lift (mod_pow g x p) ;;
        if negb (calculated_y =? y)
        then raise (ValueError "Les valeurs x et y ne sont pas coherentes")
        else ret {| p := p; g := g; y := y; x := x |}
    | Some x, None =>
        if (x <=? 0) || (x >=? p)
        then raise (ValueError "x doit etre dans l'intervalle [1, p-1]")
        else
          y <- lift (mod_pow g x p) ;;
          ret {| p := p; g := g; y := y; x := x |}
    | None, Some y =>
        if (y <=? 0) || (y >=? p)
        then raise (ValueError "y doit etre dans l'intervalle [1, p-1]")
        else
          x <- Py.randint 1 (p - 2) ;;
          y_calc <- lift (mod_pow g x p) ;;
          ret {| p := p; g := g; y := y_calc; x := x |}
    | None, None =>
        x <- Py.randint 1 (p - 2) ;;
        y <- lift (mod_pow g x p) ;;
        ret {| p := p; g := g; y := y; x := x |}
    end.

Definition create_keys_from_components (p g : Z) (x y : option Z)
  : list Z -> outcome (option (keys * list Z)) :=
  caught (create_keys p g x y).

(** The result of the check that [display_key_components] prints. *)
Definition display_key_components (keys : keys) : outcome bool :=
  y_calc <-- mod_pow (g keys) (x keys) (p keys) ;;
  Returns (y_calc =? y keys).

End ElGamalCryptoKeys.

(** * Properties *)

(** ** The hash is the standard one *)

Example sha256_abc :
  Hashlib.sha256_int (Hashlib.bytes_of_string "abc")
  = 0xba7816bf8f01cfea414140de5dae2223b00361a396177a9cb410ff61f20015ad.
Proof. vm_compute. reflexivity. Qed.

Example sha256_empty :
  Hashlib.sha256_int []
  = 0xe3b0c44298fc1c149afbf4c8996fb92427ae41e4649b934ca495991b7852b855.
Proof. vm_compute. reflexivity. Qed.

(** ** Built-ins *)

Lemma pow_returns (b e m : Z) :
  0 <= e -> m <> 0 -> Py.pow b e m = Returns (b ^ e mod m).
Proof.
  intros He Hm. unfold Py.pow.
  destruct (Z.eqb_spec m 0) as [|_]; [contradiction|].
  destruct (Z.ltb_spec e 0) as [|_]; [lia|].
  now rewrite Zpow_mod_correct.
Qed.

Lemma mod_returns (a b : Z) : b <> 0 -> Py.mod_ a b = Returns (a mod b).
Proof.
  intros Hb. unfold Py.mod_. now destruct (Z.eqb_spec b 0).
Qed.

Lemma in_range (lo hi v : Z) : In v (Py.range lo hi) <-> lo <= v < hi.
Proof.
  unfold Py.range. rewrite in_map_iff. split.
  - intros (i & <- & Hi). apply in_seq in Hi. lia.
  - intros H. exists (Z.to_nat (v - lo)). split; [lia|].
    apply in_seq. lia.
Qed.

(** ** Euclid *)

Lemma gcd_loop_eq (a b : Z) :
  gcd a b = if b =? 0 then a else gcd b (a mod b).
Proof.
  funelim (gcd a b); now destruct (Z.eqb_spec b 0).
Qed.

Lemma gcd_correct (a b : Z) : 0 <= a -> 0 <= b -> gcd a b = Z.gcd a b.
Proof.
  funelim (gcd a b); intros Ha Hb.
  - clear Heq Heqcall. subst b. rewrite Z.gcd_0_r. lia.
  - clear Heq Heqcall. rewrite H.
    + rewrite Z.gcd_comm, Z.gcd_mod by assumption. apply Z.gcd_comm.
    + assumption.
    + pose proof (Z.mod_pos_bound a b). lia.
Qed.

Lemma extended_gcd_eq (a b : Z) :
  extended_gcd a b =
  if a =? 0 then (b, 0, 1)
  else let '(g, x1, y1) := extended_gcd (b mod a) a in
       (g, y1 - (b / a) * x1, x1).
Proof.
  funelim (extended_gcd a b); now destruct (Z.eqb_spec a 0).
Qed.

(** The coefficients returned are Bézout coefficients, whatever the signs. *)
Lemma extended_gcd_bezout (a b : Z) :
  let '(g, x, y) := extended_gcd a b in a * x + b * y = g.
Proof.
  funelim (extended_gcd a b).
  - lia.
  - clear Heq Heqcall.
    destruct (extended_gcd (b mod a) a) as [[g x1] y1].
    pose proof (Z.div_mod b a n). nia.
Qed.


(** With a negative first argument the value returned as gcd is negative. *)
Lemma extended_gcd_negative (a b : Z) :
  a < 0 -> fst (fst (extended_gcd a b)) < 0.
Proof.
  intros Ha. revert b.
  assert (G : forall a b : Z, a <= 0 -> b < 0 -> fst (fst (extended_gcd a b)) < 0).
  { clear. intros a b. funelim (extended_gcd a b); intros Ha Hb.
    - simpl. lia.
    - clear Heq Heqcall.
      pose proof (Z.mod_neg_bound b a ltac:(lia)) as Hm.
      specialize (H ltac:(lia) ltac:(lia)).
      destruct (extended_gcd (b mod a) a) as [[g x1] y1]. simpl in *. lia. }
  intros b. rewrite extended_gcd_eq.
  destruct (Z.eqb_spec a 0); [lia|].
  pose proof (Z.mod_neg_bound b a ltac:(lia)) as Hm.
  specialize (G (b mod a) a ltac:(lia) Ha).
  destruct (extended_gcd (b mod a) a) as [[g x1] y1]. simpl in *. lia.
Qed.

(** ** Modular inverse *)





(** The value returned as gcd is negative for every negative [a], so that
    [mod_inverse] never finds an inverse there. *)
Lemma mod_inverse_negative (a m : Z) :
  a < 0 ->
  ElGamalSignature.mod_inverse a m
    = Raises (Exception "Modular inverse does not exist") /\
  ElGamalCrypto.mod_inverse a m = Returns None.
Proof.
  intros Ha. unfold ElGamalSignature.mod_inverse, ElGamalCrypto.mod_inverse.
  pose proof (extended_gcd_negative a m Ha) as Hg.
  destruct (extended_gcd a m) as [[g x] y]. cbn [fst] in Hg.
  destruct (Z.eqb_spec g 1); [lia|]. split; reflexivity.
Qed.

(** ** Miller-Rabin: the cases decided before any draw *)

(** [gamel.py]: [n <= 1] and even [n > 2] are rejected, 2 and 3 accepted,
    whatever the draws and the number of rounds. *)
Lemma is_prime_trivial_gamel (n : Z) (k : nat) (tape : list Z) :
  (n <= 1 -> ElGamalCrypto.is_prime n k tape = Returns (false, tape)) /\
  (2 < n -> Z.even n = true ->
   ElGamalCrypto.is_prime n k tape = Returns (false, tape)) /\
  (n = 2 \/ n = 3 -> ElGamalCrypto.is_prime n k tape = Returns (true, tape)).
Proof.
  unfold ElGamalCrypto.is_prime. split; [|split].
  - intros H. destruct (Z.ltb_spec n 2); [reflexivity | lia].
  - intros H Hev. destruct (Z.ltb_spec n 2); [lia|].
    destruct (Z.eqb_spec n 2); [lia|].
    destruct (Z.eqb_spec n 3); [subst; discriminate|].
    cbn [orb]. rewrite Zmod_even, Hev. reflexivity.
  - intros [-> | ->]; reflexivity.
Qed.

(** [RSAsignature.py] and [Elgamelsignature.py]: [n <= 1] and 4 are rejected,
    2 and 3 accepted; nothing is said there about the other even numbers. *)
Lemma is_prime_trivial_signature (n : Z) (k : nat) (tape : list Z) :
  (n <= 1 \/ n = 4 -> RSAsignature.is_prime n k tape = Returns (false, tape)) /\
  (n = 2 \/ n = 3 -> RSAsignature.is_prime n k tape = Returns (true, tape)).
Proof.
  unfold RSAsignature.is_prime. split.
  - intros [H | ->]; [|reflexivity].
    destruct (Z.leb_spec n 1); [reflexivity | lia].
  - intros [-> | ->]; reflexivity.
Qed.

(** For an even [n > 4] the signature files run the rounds with [d = n - 1]
    and no squaring: the answer is [True] as soon as every witness [a] has
    [a^(n-1) mod n] equal to 1 or to [n - 1]. *)
Lemma is_prime_even_signature (n : Z) (tape : list Z) :
  4 < n -> Z.even n = true ->
  Forall (fun a => 2 <= a <= n - 2 /\ (a ^ (n - 1) mod n = 1 \/ a ^ (n - 1) mod n = n - 1))
    tape ->
  RSAsignature.is_prime n (length tape) tape = Returns (true, []).
Proof.
  intros Hn Hev Hall. unfold RSAsignature.is_prime.
  destruct (Z.leb_spec n 1); [lia|]. destruct (Z.eqb_spec n 4); [lia|].
  destruct (Z.leb_spec n 3); [lia|]. cbn [orb].
  assert (E : RSAsignature.halve_loop (n - 1) 0 = (n - 1, 0%nat)).
  { assert (Hodd : Z.odd (n - 1) = true).
    { rewrite Z.odd_sub, <- !Z.negb_even, Hev. reflexivity. }
    destruct (n - 1) as [|q|q] eqn:Eq; [lia| |lia].
    destruct q; simpl in Hodd; try discriminate; reflexivity. }
  rewrite E. clear E.
  induction Hall as [|a tape [Ha Hpow] _ IH]; [reflexivity|].
  cbn [length RSAsignature.witness_rounds]. unfold bind at 1, Py.randint.
  destruct (Z.ltb_spec (n - 2) 2); [lia|].
  destruct (Z.leb_spec 2 a); [|lia]. destruct (Z.leb_spec a (n - 2)); [|lia].
  cbn [andb]. unfold bind at 1, lift. rewrite pow_returns by lia. cbn [obind].
  destruct Hpow as [-> | ->].
  - cbn [Z.eqb orb]. exact IH.
  - rewrite Z.eqb_refl, orb_true_r. exact IH.
Qed.

(** C6 fails in [RSAsignature.py] (and in [Elgamelsignature.py], same text):
    [is_prime(28)] returns [True] when the five witnesses drawn are all 9,
    since [9^27 mod 28 = 1]. The claim wants [False] for every even
    [n > 2]. *)
Theorem is_prime_accepts_even_28 :
  Z.even 28 = true /\ 2 < 28 /\
  RSAsignature.is_prime 28 5 [9; 9; 9; 9; 9] = Returns (true, []) /\
  ElGamalSignature.is_prime 28 5 [9; 9; 9; 9; 9] = Returns (true, []) /\
  ElGamalCrypto.is_prime 28 5 [9; 9; 9; 9; 9] = Returns (false, [9; 9; 9; 9; 9]).
Proof.
  split; [reflexivity|]. split; [reflexivity|].
  split; [vm_compute; reflexivity|]. split; vm_compute; reflexivity.
Qed.

(** ** [generate_prime(min_val, max_val)] *)

Lemma randint_returns (lo hi v : Z) (tape tape' : list Z) :
  Py.randint lo hi tape = Returns (v, tape') ->
  lo <= v <= hi /\ tape = v :: tape'.
Proof.
  unfold Py.randint. destruct (Z.ltb_spec hi lo); [discriminate|].
  destruct tape as [|v0 t]; [discriminate|].
  destruct (Z.leb_spec lo v0); [|discriminate].
  destruct (Z.leb_spec v0 hi); [|discriminate].
  cbn [andb]. intros [= <- <-]. split; [lia | reflexivity].
Qed.

Lemma randint_draws (lo hi v : Z) (tape : list Z) :
  lo <= v <= hi -> Py.randint lo hi (v :: tape) = Returns (v, tape).
Proof.
  intros H. unfold Py.randint. destruct (Z.ltb_spec hi lo); [lia|].
  destruct (Z.leb_spec lo v); [|lia]. destruct (Z.leb_spec v hi); [|lia].
  reflexivity.
Qed.

Lemma force_odd (v : Z) :
  let p := if v mod 2 =? 0 then v + 1 else v in
  Z.odd p = true /\ v <= p <= v + 1.
Proof.
  cbn zeta. rewrite Zmod_even.
  destruct (Z.even v) eqn:E; cbn [Z.eqb].
  - split; [|lia]. rewrite Z.odd_add, <- Z.negb_even, E. reflexivity.
  - split; [|lia]. now rewrite <- Z.negb_even, E.
Qed.

(** What the loop hands back is odd, was accepted by [is_prime] on some
    draws, and lies in [[min_val, max_val + 1]]. *)
Lemma generate_prime_loop_result
  (fuel : nat) (min_val max_val : Z) (tape tape' : list Z) (p : Z) :
  ElGamalSignature.generate_prime_loop fuel min_val max_val tape = Returns (p, tape') ->
  Z.odd p = true /\ min_val <= p <= max_val + 1 /\
  exists t1 t2, ElGamalSignature.is_prime p 5 t1 = Returns (true, t2).
Proof.
  revert tape. induction fuel as [|fuel IH]; intros tape; [discriminate|].
  cbn [ElGamalSignature.generate_prime_loop]. unfold bind at 1.
  destruct (Py.randint min_val max_val tape) as [[v t]| |] eqn:Ev; try discriminate.
  apply randint_returns in Ev as [Hv _].
  pose proof (force_odd v) as Hodd. cbn zeta in Hodd.
  set (c := if v mod 2 =? 0 then v + 1 else v) in *.
  unfold bind at 1.
  destruct (ElGamalSignature.is_prime c 5 t) as [[[|] t2]| |] eqn:Ep; try discriminate.
  - unfold ret. intros [= <- <-]. repeat split; try tauto; try lia.
    now exists t, t2.
  - apply IH.
Qed.

Lemma generate_prime_loop_result_gamel
  (fuel : nat) (min_val max_val : Z) (tape tape' : list Z) (p : Z) :
  ElGamalCrypto.generate_prime_loop fuel min_val max_val tape = Returns (p, tape') ->
  Z.odd p = true /\ min_val <= p <= max_val + 1 /\
  exists t1 t2, ElGamalCrypto.is_prime p 5 t1 = Returns (true, t2).
Proof.
  revert tape. induction fuel as [|fuel IH]; intros tape; [discriminate|].
  cbn [ElGamalCrypto.generate_prime_loop]. unfold bind at 1.
  destruct (Py.randint min_val max_val tape) as [[v t]| |] eqn:Ev; try discriminate.
  apply randint_returns in Ev as [Hv _].
  pose proof (force_odd v) as Hodd. cbn zeta in Hodd.
  set (c := if v mod 2 =? 0 then v + 1 else v) in *.
  unfold bind at 1.
  destruct (ElGamalCrypto.is_prime c 5 t) as [[[|] t2]| |] eqn:Ep; try discriminate.
  - unfold ret. intros [= <- <-]. repeat split; try tauto; try lia.
    now exists t, t2.
  - apply IH.
Qed.

(** With [min_val = max_val = 2] the only possible draw is 2, which is made
    odd: the function returns 3 on every list of draws that it can read. *)
Lemma generate_prime_2_2 (tape : list Z) :
  ElGamalSignature.generate_prime 2 2 (2 :: tape) = Returns (3, tape) /\
  ElGamalCrypto.generate_prime 2 2 (2 :: tape) = Returns (3, tape).
Proof. split; reflexivity. Qed.

(** C7 fails in both files: a draw of an even [max_val] is turned into
    [max_val + 1], and [generate_prime(1000, 1012)] returns the prime 1013,
    outside [[1000, 1012]] (which holds the prime 1009), when [randint] gives
    1012. The docstrings promise a prime inside the interval. *)
Theorem generate_prime_leaves_interval :
  ElGamalSignature.generate_prime 1000 1012 [1012; 2; 3; 5; 7; 11]
    = Returns (1013, []) /\
  ElGamalCrypto.generate_prime 1000 1012 [1012; 2; 3; 5; 7; 11]
    = Returns (1013, []) /\
  ~ (1000 <= 1013 <= 1012) /\ 1000 <= 1009 <= 1012.
Proof.
  split; [vm_compute; reflexivity|]. split; [vm_compute; reflexivity|]. lia.
Qed.

(** ** ElGamal [verify]: signatures outside the ranges *)

Lemma verify_logged_returns (message : string) (r s : Z) (keys : ElGamalSignature.keys) :
  exists (log : list ElGamalSignature.operation) (b : bool),
    ElGamalSignature.verify_logged message (r, s) keys = (log, Returns b).
Proof.
  unfold ElGamalSignature.verify_logged. destruct keys as [p g y x]. cbn [ElGamalSignature.p ElGamalSignature.g ElGamalSignature.y].
  destruct (Z.leb_spec r 0); [now eexists; eexists|].
  destruct (Z.geb_spec r p); [now eexists; eexists|].
  destruct (Z.leb_spec s 0); [now eexists; eexists|].
  destruct (Z.geb_spec s (p - 1)); [now eexists; eexists|].
  cbn [orb].
  unfold ElGamalSignature.logged_hash, ElGamalSignature.logged_mod,
    ElGamalSignature.logged_pow, ElGamalSignature.lbind, ElGamalSignature.lret.
  rewrite !mod_returns by lia.
  pose proof (Z.mod_pos_bound (ElGamalSignature.hash_message message) p ltac:(lia)).
  rewrite !pow_returns by lia. rewrite !mod_returns by lia.
  now eexists; eexists.
Qed.

(** C9: whatever the keys and the message, a pair [(r, s)] with [r <= 0],
    [r >= p], [s <= 0] or [s >= p - 1] makes [verify] return [False] before
    it hashes, reduces or exponentiates anything; and [verify] returns a
    boolean on every signature, it never raises. *)
Theorem verify_rejects_out_of_range
  (message : string) (r s : Z) (keys : ElGamalSignature.keys) :
  (r <= 0 \/ r >= ElGamalSignature.p keys \/ s <= 0 \/ s >= ElGamalSignature.p keys - 1 ->
   ElGamalSignature.verify_logged message (r, s) keys = ([], Returns false) /\
   ElGamalSignature.verify message (r, s) keys = Returns false) /\
  (exists b : bool, ElGamalSignature.verify message (r, s) keys = Returns b).
Proof.
  split.
  - intros H. unfold ElGamalSignature.verify, ElGamalSignature.verify_logged.
    destruct keys as [p g y x]. cbn [ElGamalSignature.p ElGamalSignature.g ElGamalSignature.y] in *.
    destruct (Z.leb_spec r 0); [now split|].
    destruct (Z.geb_spec r p); [now split|].
    destruct (Z.leb_spec s 0); [now split|].
    destruct (Z.geb_spec s (p - 1)); [now split|]. lia.
  - destruct (verify_logged_returns message r s keys) as (log & b & E).
    exists b. unfold ElGamalSignature.verify. now rewrite E.
Qed.

Lemma verify_rejects_out_of_range_witness :
  let keys := {| ElGamalSignature.p := 11; ElGamalSignature.g := 2;
                 ElGamalSignature.y := 8; ElGamalSignature.x := 3 |} in
  (ElGamalSignature.verify_logged "m" (0, 5) keys = ([], Returns false) /\
   ElGamalSignature.verify "m" (0, 5) keys = Returns false) /\
  (ElGamalSignature.verify_logged "m" (11, 5) keys = ([], Returns false) /\
   ElGamalSignature.verify "m" (11, 5) keys = Returns false).
Proof.
  intros keys. split.
  - apply (proj1 (verify_rejects_out_of_range "m" 0 5 keys)). left. lia.
  - apply (proj1 (verify_rejects_out_of_range "m" 11 5 keys)).
    right; left. simpl. lia.
Defined.

(** ** RSA key generation: the two primes *)

Lemma isprime_correct (n : Z) : RSACrypto.isprime n = true <-> Z.prime n.
Proof.
  unfold RSACrypto.isprime, Z.prime.
  rewrite andb_true_iff, Z.ltb_lt, forallb_forall. split.
  - intros [Hn H]. split; [assumption|]. intros d Hd Hdiv.
    specialize (H d (proj2 (in_range 2 n d) ltac:(lia))).
    apply Z.mod_divide in Hdiv; [|lia]. rewrite Hdiv in H. discriminate.
  - intros [Hn H]. split; [assumption|]. intros d Hd.
    apply in_range in Hd. apply negb_true_iff. apply Z.eqb_neq.
    intros Hm. apply (H d ltac:(lia)). apply Z.mod_divide; [lia | assumption].
Qed.




Lemma prime_251 : Z.prime 251.
Proof. apply isprime_correct. vm_compute. reflexivity. Qed.

Lemma square_of_prime_not_semiprime (r : Z) :
  Z.prime r ->
  ~ exists p q : Z, Z.prime p /\ Z.prime q /\ p <> q /\ p * q = r * r.
Proof.
  intros Hr (p & q & Hp & Hq & Hne & E).
  assert (Dp : (p | r * r)) by (exists q; lia).
  assert (Dq : (q | r * r)) by (exists p; lia).
  apply (Z.divide_prime_mul _ _ _ Hp) in Dp. apply (Z.divide_prime_mul _ _ _ Hq) in Dq.
  assert (p = r) by (destruct Dp as [D|D]; now apply (Z.divide_prime_prime p r Hp Hr)).
  assert (q = r) by (destruct Dq as [D|D]; now apply (Z.divide_prime_prime q r Hq Hr)).
  congruence.
Qed.

(** C5 fails in [RSAsignature.py]: [generate_keypair] draws [p] and [q]
    independently and never compares them. With [bits = 16] and both draws
    of [getrandbits(8)] equal to 251 it returns the modulus [251 * 251],
    which is not a product of two distinct primes. [rsa (1).py] has the
    retry loop, see [draw_primes_distinct]. *)
Theorem generate_keypair_equal_primes :
  let tape := [251; 2; 3; 4; 5; 6; 251; 2; 3; 4; 5; 6] in
  RSAsignature.draw_primes 16 tape = Returns ((251, 251), []) /\
  RSAsignature.generate_keypair 16 tape
    = Returns ({| RSAsignature.public := (65537, 63001);
                  RSAsignature.private := (35973, 63001) |}, []) /\
  63001 = 251 * 251 /\
  ~ exists p q : Z, Z.prime p /\ Z.prime q /\ p <> q /\ p * q = 63001.
Proof.
  cbn zeta. split; [vm_compute; reflexivity|]. split; [vm_compute; reflexivity|].
  split; [reflexivity|].
  change 63001 with (251 * 251). apply square_of_prime_not_semiprime, prime_251.
Qed.

(** ** [prime_factors] *)

Lemma divide_out_eq (i n : Z) (factors : list Z) :
  divide_out i n factors =
  if (1 <? i) && (0 <? n) && (n mod i =? 0)
  then divide_out i (n / i) (factors ++ [i])
  else (n, factors).
Proof.
  funelim (divide_out i n factors).
  - now rewrite e.
  - now rewrite e0.
Qed.

Lemma trial_division_eq (i n : Z) (factors : list Z) :
  trial_division i n factors =
  if i * i <=? n
  then let '(n', factors') := divide_out i n factors in
       trial_division (i + 1) n' factors'
  else (n, factors).
Proof.
  funelim (trial_division i n factors).
  - now rewrite e0.
  - now rewrite e, E.
Qed.

(** The inner loop removes every power of [i] from [n] and appends as many
    copies of [i]. *)
Lemma divide_out_spec (i n : Z) (factors : list Z) :
  1 < i -> 0 < n ->
  exists (k : nat) (n' : Z),
    divide_out i n factors = (n', factors ++ repeat i k) /\
    n = n' * i ^ Z.of_nat k /\ 0 < n' /\ ~ (i | n').
Proof.
  intros Hi Hn. revert factors.
  induction n as [n IH] using (well_founded_induction (Z.lt_wf 0)).
  intros factors. rewrite divide_out_eq.
  destruct (Z.ltb_spec 1 i); [|lia]. destruct (Z.ltb_spec 0 n); [|lia].
  cbn [andb]. destruct (Z.eqb_spec (n mod i) 0) as [E|E].
  - assert (Hd : n = i * (n / i)) by (apply Z.div_exact; lia).
    assert (0 < n / i < n) by nia.
    destruct (IH (n / i) ltac:(lia) ltac:(lia) (factors ++ [i])) as (k & n' & Ek & En & Hp & Hnd).
    exists (S k), n'. rewrite Ek. repeat split; try assumption.
    + now rewrite <- app_assoc.
    + rewrite Nat2Z.inj_succ, Z.pow_succ_r by lia. lia.
  - exists 0%nat, n. rewrite app_nil_r. repeat split; try lia.
    intros Hd. apply E. apply Z.mod_divide; [lia | assumption].
Qed.

(** A number above 1 with no divisor [d] such that [1 < d] and [d * d <= n]
    is prime. *)
Lemma prime_by_trial (i n : Z) :
  1 < n -> n < i * i -> 0 < i ->
  (forall d : Z, 1 < d < i -> ~ (d | n)) -> Z.prime n.
Proof.
  intros Hn Hi Hpos Hnd. split; [assumption|].
  intros d Hd [c Hc].
  assert (1 < c < n) by nia.
  assert (~ d < i) by (intros ?; apply (Hnd d); [lia | now exists c]).
  assert (~ c < i) by (intros ?; apply (Hnd c); [lia | exists d; lia]).
  nia.
Qed.

(** The outer loop, started at [i] on an [n] without divisors between 1 and
    [i]: what it appends and what it leaves are exactly the prime divisors
    of [n]. *)
Lemma trial_division_spec (i n : Z) (factors : list Z) :
  2 <= i -> 0 < n -> (forall d : Z, 1 < d < i -> ~ (d | n)) ->
  exists (n' : Z) (extra : list Z),
    trial_division i n factors = (n', factors ++ extra) /\ 0 < n' /\
    forall q : Z, In q extra \/ (1 < n' /\ q = n') <-> Z.prime q /\ (q | n).
Proof.
  remember (Z.to_nat (n + 1 - i)) as m eqn:Em.
  revert i n factors Em.
  induction m as [m IH] using lt_wf_ind. intros i n factors Em Hi Hn Hnd.
  rewrite trial_division_eq. destruct (Z.leb_spec (i * i) n) as [Hle|Hgt].
  - destruct (divide_out_spec i n factors ltac:(lia) Hn) as (k & n1 & E1 & En & Hn1 & Hi1).
    rewrite E1.
    assert (Hdiv1 : (n1 | n)) by (exists (i ^ Z.of_nat k); lia).
    assert (Hle1 : n1 <= n).
    { apply Z.divide_pos_le; assumption. }
    destruct (IH (Z.to_nat (n1 + 1 - (i + 1))) ltac:(nia) (i + 1) n1
                (factors ++ repeat i k) eq_refl ltac:(lia) Hn1)
      as (n' & extra & E & Hn' & Hchar).
    { intros d Hd Hdn1. destruct (Z.eq_dec d i) as [->|Hne]; [contradiction|].
      apply (Hnd d); [lia|]. now apply Z.divide_trans with n1. }
    exists n', (repeat i k ++ extra). rewrite E, <- app_assoc.
    split; [reflexivity|]. split; [assumption|].
    assert (Hip : (0 < k)%nat -> Z.prime i /\ (i | n)).
    { intros Hk. assert (Hin : (i | n)).
      { exists (n1 * i ^ (Z.of_nat k - 1)). rewrite En.
        replace (Z.of_nat k) with (Z.succ (Z.of_nat k - 1)) at 1 by lia.
        rewrite Z.pow_succ_r by lia. ring. }
      split; [|assumption]. split; [lia|].
      intros d Hd Hdi. apply (Hnd d); [lia|]. now apply Z.divide_trans with i. }
    intros q. rewrite in_app_iff. split.
    + intros [[Hq | Hq] | Hq].
      * apply repeat_spec in Hq as Hqi. subst q. apply Hip.
        destruct k; [contradiction | lia].
      * destruct (proj1 (Hchar q) (or_introl Hq)) as [Hp Hd].
        split; [assumption | now apply Z.divide_trans with n1].
      * destruct (proj1 (Hchar q) (or_intror Hq)) as [Hp Hd].
        split; [assumption | now apply Z.divide_trans with n1].
    + intros [Hp Hd]. rewrite En in Hd.
      apply (Z.divide_prime_mul _ _ _ Hp) in Hd as [Hd | Hd].
      * destruct (proj2 (Hchar q) (conj Hp Hd)); tauto.
      * left; left. destruct k as [|k].
        { simpl in Hd. destruct Hp as [Hq1 _].
          apply Z.divide_1_r_nonneg in Hd; lia. }
        assert (Hqi : (q | i)).
        { clear - Hp Hd. induction (S k) as [|j IHj].
          - simpl in Hd. destruct Hp as [Hq1 _].
            apply Z.divide_1_r_nonneg in Hd; lia.
          - rewrite Nat2Z.inj_succ, Z.pow_succ_r in Hd by lia.
            apply (Z.divide_prime_mul _ _ _ Hp) in Hd as [Hd | Hd]; auto. }
        destruct (Hip ltac:(lia)) as [Hpi _].
        apply (Z.divide_prime_prime q i Hp Hpi) in Hqi. subst q.
        simpl. now left.
  - exists n, []. rewrite app_nil_r. split; [reflexivity|]. split; [assumption|].
    intros q. split.
    + intros [[] | [H1 ->]]. split; [|apply Z.divide_refl].
      apply (prime_by_trial i n); try assumption; lia.
    + intros [Hp Hd]. right.
      assert (1 < n).
      { destruct Hp as [Hq1 _]. apply Z.divide_pos_le in Hd; lia. }
      split; [assumption|].
      assert (Hpn : Z.prime n) by (apply (prime_by_trial i n); try assumption; lia).
      now apply (Z.divide_prime_prime q n Hp Hpn).
Qed.

(** C10: for [n >= 1], [prime_factors(n)] lists the prime divisors of [n],
    all of them and nothing else, each once; for [n = 1] it is empty. *)
Theorem prime_factors_spec (n : Z) :
  1 <= n ->
  (forall q : Z, In q (prime_factors n) <-> Z.prime q /\ (q | n)) /\
  NoDup (prime_factors n) /\
  (n = 1 -> prime_factors n = []).
Proof.
  intros Hn. unfold prime_factors, list_set.
  destruct (trial_division_spec 2 n [] ltac:(lia) ltac:(lia)) as (n' & extra & E & Hn' & Hchar).
  { intros d Hd. lia. }
  rewrite E. cbn [app]. split; [|split].
  - intros q. rewrite nodup_In, <- Hchar.
    destruct (Z.ltb_spec 1 n').
    + rewrite in_app_iff. cbn [In]. intuition (try lia; auto).
    + intuition lia.
  - apply NoDup_nodup.
  - intros ->. rewrite trial_division_eq in E. cbn in E.
    injection E as <- <-. reflexivity.
Qed.

Lemma prime_factors_spec_witness :
  (forall q : Z, In q (prime_factors 360) <-> Z.prime q /\ (q | 360)) /\
  NoDup (prime_factors 360) /\
  (360 = 1 -> prime_factors 360 = []).
Proof.
  apply (prime_factors_spec 360). lia.
Defined.

Example prime_factors_360 : prime_factors 360 = [2; 3; 5].
Proof. vm_compute. reflexivity. Qed.

(** ** RSA: why signing and encrypting can be undone *)

Lemma pow_mod_prime_cycle (p h k : Z) :
  Z.prime p -> 0 <= k -> h ^ (1 + k * (p - 1)) mod p = h mod p.
Proof.
  intros Hp Hk. pose proof (Z.prime_ge_2 p Hp) as Hp2.
  rewrite Z.pow_add_r, Z.pow_1_r by nia.
  destruct (Z.eq_dec (h mod p) 0) as [E|E].
  - rewrite <- Z.mul_mod_idemp_l, E by lia. reflexivity.
  - assert (F : h ^ (k * (p - 1)) mod p = 1).
    { rewrite (Z.mul_comm k), Z.pow_mul_r by lia.
      rewrite <- Z.mod_pow_l, (Z.fermat_nz p h Hp E), Z.pow_1_l by lia.
      apply Z.mod_small. lia. }
    rewrite <- Z.mul_mod_idemp_r, F, Z.mul_1_r by lia. reflexivity.
Qed.

Lemma coprime_divide_mul (p q c : Z) :
  Z.gcd p q = 1 -> (p | c) -> (q | c) -> (p * q | c).
Proof.
  intros Hg [a ->] Hq. rewrite Z.mul_comm in Hq.
  apply Z.gauss in Hq; [|now rewrite Z.gcd_comm].
  destruct Hq as [b ->]. exists b. ring.
Qed.

Lemma distinct_primes_coprime (p q : Z) :
  Z.prime p -> Z.prime q -> p <> q -> Z.gcd p q = 1.
Proof.
  intros Hp Hq Hne. apply (Z.coprime_prime_l p q Hp).
  intros Hd. apply Hne. now apply (Z.divide_prime_prime p q Hp Hq).
Qed.

(** For distinct primes [p] and [q] and exponents with
    [e * d = 1 (mod (p - 1) * (q - 1))], raising to the power [e * d]
    modulo [p * q] changes nothing. *)
Lemma rsa_cycle (p q e d h : Z) :
  Z.prime p -> Z.prime q -> p <> q -> 0 <= e -> 0 <= d ->
  (e * d) mod ((p - 1) * (q - 1)) = 1 ->
  h ^ (e * d) mod (p * q) = h mod (p * q).
Proof.
  intros Hp Hq Hne He Hd Hed.
  pose proof (Z.prime_ge_2 p Hp). pose proof (Z.prime_ge_2 q Hq).
  set (phi := (p - 1) * (q - 1)) in *.
  assert (Hphi : 0 < phi) by (unfold phi; nia).
  pose proof (Z.div_mod (e * d) phi ltac:(lia)) as Hdm. rewrite Hed in Hdm.
  assert (Hk : 0 <= e * d / phi) by (apply Z.div_pos; nia).
  set (k := e * d / phi) in *.
  assert (Ep : h ^ (e * d) mod p = h mod p).
  { replace (e * d) with (1 + (k * (q - 1)) * (p - 1)) by (unfold phi in Hdm; lia).
    apply pow_mod_prime_cycle; [assumption | nia]. }
  assert (Eq : h ^ (e * d) mod q = h mod q).
  { replace (e * d) with (1 + (k * (p - 1)) * (q - 1)) by (unfold phi in Hdm; lia).
    apply pow_mod_prime_cycle; [assumption | nia]. }
  assert (Dp : (p | h ^ (e * d) - h)).
  { apply Z.mod_divide; [lia|]. rewrite Zminus_mod, Ep, Z.sub_diag. reflexivity. }
  assert (Dq : (q | h ^ (e * d) - h)).
  { apply Z.mod_divide; [lia|]. rewrite Zminus_mod, Eq, Z.sub_diag. reflexivity. }
  pose proof (coprime_divide_mul p q _ (distinct_primes_coprime p q Hp Hq Hne) Dp Dq) as [c Hc].
  replace (h ^ (e * d)) with (h + c * (p * q)) by lia.
  apply Z.mod_add. nia.
Qed.

Lemma rsa_round_trip (p q e d h : Z) :
  Z.prime p -> Z.prime q -> p <> q -> 0 <= e -> 0 <= d ->
  (e * d) mod ((p - 1) * (q - 1)) = 1 -> 0 <= h < p * q ->
  (h ^ e mod (p * q)) ^ d mod (p * q) = h /\
  (h ^ d mod (p * q)) ^ e mod (p * q) = h.
Proof.
  intros Hp Hq Hne He Hd Hed Hh.
  rewrite !Z.mod_pow_l, <- !Z.pow_mul_r by assumption.
  rewrite (Z.mul_comm d e), (rsa_cycle p q e d h) by assumption.
  split; apply Z.mod_small; assumption.
Qed.

(** ** RSA signatures *)

Lemma fold_be_nonneg (w : Z) (ds : list Z) (acc : Z) :
  Forall (fun d => 0 <= d) ds -> 0 <= acc ->
  0 <= fold_left (fun acc d : Z => acc * 2 ^ w + d) ds acc.
Proof.
  intros H. revert acc.
  induction H as [|d ds Hd _ IH]; intros acc Hacc; cbn [fold_left].
  - assumption.
  - apply IH. pose proof (Z.pow_nonneg 2 w ltac:(lia)). nia.
Qed.

Lemma mask32_nonneg (x : Z) : 0 <= Hashlib.mask32 x.
Proof. unfold Hashlib.mask32. apply Z.mod_pos_bound. lia. Qed.

Lemma sha256_words_nonneg (msg : list Z) :
  Forall (fun d => 0 <= d) (Hashlib.sha256_words msg).
Proof.
  unfold Hashlib.sha256_words.
  generalize (Hashlib.chunks (length (Hashlib.pad msg) / 64) 64 (Hashlib.pad msg)).
  assert (H0 : Forall (fun d => 0 <= d) Hashlib.H0).
  { unfold Hashlib.H0. apply Forall_map, Forall_forall. intros; apply mask32_nonneg. }
  revert H0. generalize Hashlib.H0 as st. intros st Hst blocks. revert st Hst.
  induction blocks as [|b bs IH]; intros st Hst; cbn [fold_left].
  - assumption.
  - apply IH. unfold Hashlib.compress.
    apply Forall_map, Forall_forall. intros; apply mask32_nonneg.
Qed.

Lemma hash_message_nonneg (message : string) : 0 <= RSAsignature.hash_message message.
Proof.
  unfold RSAsignature.hash_message, Hashlib.sha256_int, Hashlib.be_value.
  apply fold_be_nonneg; [apply sha256_words_nonneg | lia].
Qed.

Lemma randrange_returns (lo hi v : Z) (tape tape' : list Z) :
  Py.randrange lo hi tape = Returns (v, tape') ->
  lo <= v < hi /\ tape = v :: tape'.
Proof.
  unfold Py.randrange. destruct (Z.leb_spec hi lo); [discriminate|].
  destruct tape as [|v0 t]; [discriminate|].
  destruct (Z.leb_spec lo v0); [|discriminate].
  destruct (Z.ltb_spec v0 hi); [|discriminate].
  cbn [andb]. intros [= <- <-]. split; [lia | reflexivity].
Qed.

Lemma choose_e_result (fuel : nat) (e phi e' : Z) (tape tape' : list Z) :
  RSAsignature.choose_e fuel e phi tape = Returns (e', tape') ->
  0 <= e -> 0 <= phi -> Z.gcd e' phi = 1 /\ 0 <= e'.
Proof.
  revert e tape. induction fuel as [|fuel IH]; intros e tape;
    cbn [RSAsignature.choose_e]; destruct (Z.eqb_spec (gcd e phi) 1) as [E|E].
  - unfold ret. intros [= <- <-] He Hphi. now rewrite <- gcd_correct.
  - discriminate.
  - unfold ret. intros [= <- <-] He Hphi. now rewrite <- gcd_correct.
  - unfold bind at 1.
    destruct (Py.randrange 2 phi tape) as [[v t]| |] eqn:Ev; try discriminate.
    apply randrange_returns in Ev as [Hv _].
    intros H _ Hphi. apply (IH v t H); lia.
Qed.

Lemma rsa_mod_inverse_returns (e phi d : Z) :
  RSAsignature.mod_inverse e phi = Returns d -> 1 < phi ->
  0 <= d < phi /\ (e * d) mod phi = 1.
Proof.
  unfold RSAsignature.mod_inverse. intros H Hphi.
  pose proof (extended_gcd_bezout e phi) as Hb.
  destruct (extended_gcd e phi) as [[g x] y].
  destruct (Z.eqb_spec g 1) as [->|]; [|discriminate]. cbn [negb] in H.
  rewrite mod_returns in H by lia. injection H as <-.
  split; [apply Z.mod_pos_bound; lia|].
  rewrite Z.mul_mod_idemp_r by lia.
  replace (e * x) with (1 + (- y) * phi) by lia.
  rewrite Z.mod_add by lia. apply Z.mod_small. lia.
Qed.

(** What [generate_keypair] returns when its two draws are [p] and [q]. *)
Lemma generate_keypair_result
  (bits : Z) (tape t1 tape' : list Z) (p q : Z) (keys : RSAsignature.keypair) :
  RSAsignature.draw_primes bits tape = Returns ((p, q), t1) ->
  RSAsignature.generate_keypair bits tape = Returns (keys, tape') ->
  2 <= p -> 2 <= q -> 1 < (p - 1) * (q - 1) ->
  exists e d : Z,
    RSAsignature.public keys = (e, p * q) /\
    RSAsignature.private keys = (d, p * q) /\
    0 <= e /\ 0 <= d /\ (e * d) mod ((p - 1) * (q - 1)) = 1.
Proof.
  intros Hdraw. unfold RSAsignature.generate_keypair. unfold bind at 1.
  rewrite Hdraw. unfold bind at 1.
  destruct (RSAsignature.choose_e (length t1) 65537 ((p - 1) * (q - 1)) t1)
    as [[e t2]| |] eqn:Ee; try discriminate.
  unfold bind at 1, lift.
  destruct (RSAsignature.mod_inverse e ((p - 1) * (q - 1))) as [d| |] eqn:Ed;
    try discriminate.
  cbn [obind]. unfold ret. intros [= <- <-] Hp Hq Hphi.
  apply choose_e_result in Ee as [_ He]; [|lia|lia].
  apply rsa_mod_inverse_returns in Ed as [Hd Hed]; [|lia].
  exists e, d. cbn [RSAsignature.public RSAsignature.private]. intuition lia.
Qed.

(** C1, as the code has it: when the two values drawn by [generate_keypair]
    are distinct primes [p] and [q], then for every message whose digest [h]
    is below [n = p * q], [sign] returns [h^d mod n] and [verify] accepts
    that signature. *)
Theorem rsa_sign_verify
  (bits : Z) (tape t1 tape' : list Z) (p q : Z) (keys : RSAsignature.keypair)
  (message : string) :
  RSAsignature.draw_primes bits tape = Returns ((p, q), t1) ->
  RSAsignature.generate_keypair bits tape = Returns (keys, tape') ->
  Z.prime p -> Z.prime q -> p <> q ->
  RSAsignature.hash_message message < p * q ->
  exists e d : Z,
    RSAsignature.public keys = (e, p * q) /\
    RSAsignature.private keys = (d, p * q) /\
    RSAsignature.sign message (RSAsignature.private keys)
      = Returns (RSAsignature.hash_message message ^ d mod (p * q)) /\
    RSAsignature.verify message
      (RSAsignature.hash_message message ^ d mod (p * q))
      (RSAsignature.public keys) = Returns true.
Proof.
  intros Hdraw Hgen Hp Hq Hne Hh.
  pose proof (Z.prime_ge_2 p Hp). pose proof (Z.prime_ge_2 q Hq).
  destruct (generate_keypair_result bits tape t1 tape' p q keys Hdraw Hgen)
    as (e & d & Epub & Epriv & He & Hd & Hed); try lia; [nia|].
  exists e, d. rewrite Epub, Epriv.
  pose proof (hash_message_nonneg message) as Hh0.
  split; [reflexivity|]. split; [reflexivity|].
  unfold RSAsignature.sign, RSAsignature.verify.
  destruct (Z.geb_spec (RSAsignature.hash_message message) (p * q)); [lia|].
  rewrite !pow_returns by nia. split; [reflexivity|]. cbn [obind].
  destruct (rsa_round_trip p q e d (RSAsignature.hash_message message))
    as [_ E]; try assumption; [lia|].
  rewrite E, Z.eqb_refl. reflexivity.
Qed.

(** ** Orders of elements modulo [n] *)

Lemma forallb_false_witness {A : Type} (f : A -> bool) (l : list A) :
  forallb f l = false -> exists x : A, In x l /\ f x = false.
Proof.
  induction l as [|a l IH]; cbn [forallb]; [discriminate|].
  destruct (f a) eqn:E; cbn [andb].
  - intros H. destruct (IH H) as (x & Hx & Hf). exists x. split; [now right | assumption].
  - intros _. exists a. split; [now left | assumption].
Qed.

Lemma composite_divisor (n : Z) :
  1 < n -> ~ Z.prime n -> exists d : Z, 1 < d < n /\ (d | n).
Proof.
  intros Hn Hnp. destruct (RSACrypto.isprime n) eqn:E.
  - apply isprime_correct in E. contradiction.
  - unfold RSACrypto.isprime in E. destruct (Z.ltb_spec 1 n); [|lia].
    cbn [andb] in E. apply forallb_false_witness in E as (d & Hd & Hf).
    apply in_range in Hd. apply negb_false_iff, Z.eqb_eq in Hf.
    exists d. split; [lia|]. apply Z.mod_divide; [lia | assumption].
Qed.

Lemma prime_dec_bool (n : Z) : Z.prime n \/ ~ Z.prime n.
Proof.
  destruct (RSACrypto.isprime n) eqn:E.
  - left. now apply isprime_correct.
  - right. intros H. apply isprime_correct in H. congruence.
Qed.

Lemma prime_divisor_exists (c : Z) : 1 < c -> exists f : Z, Z.prime f /\ (f | c).
Proof.
  induction c as [c IH] using (well_founded_induction (Z.lt_wf 0)). intros Hc.
  destruct (prime_dec_bool c) as [Hp | Hnp].
  - exists c. split; [assumption | apply Z.divide_refl].
  - destruct (composite_divisor c Hc Hnp) as (d & Hd & Hdc).
    destruct (IH d ltac:(lia) ltac:(lia)) as (f & Hf & Hfd).
    exists f. split; [assumption | now apply Z.divide_trans with d].
Qed.

Lemma bezout_nonneg (a b : Z) :
  0 < a -> 0 < b ->
  exists u v : Z, 0 <= u /\ 0 <= v /\ u * a = Z.gcd a b + v * b.
Proof.
  intros Ha Hb. destruct (Z.gcd_bezout a b _ eq_refl) as (u0 & v0 & E).
  exists (u0 + (Z.abs u0 + Z.abs v0) * b), ((Z.abs u0 + Z.abs v0) * a - v0).
  repeat split; nia.
Qed.

Lemma pow_one_mul (n a k v : Z) :
  1 < n -> 0 <= k -> 0 <= v -> a ^ k mod n = 1 -> a ^ (k * v) mod n = 1.
Proof.
  intros Hn Hk Hv H.
  rewrite Z.pow_mul_r, <- Z.mod_pow_l, H, Z.pow_1_l by assumption.
  apply Z.mod_small. lia.
Qed.

Lemma pow_gcd_one (n a j k : Z) :
  1 < n -> 0 < j -> 0 < k -> a ^ j mod n = 1 -> a ^ k mod n = 1 ->
  a ^ Z.gcd j k mod n = 1.
Proof.
  intros Hn Hj Hk Ej Ek.
  destruct (bezout_nonneg j k Hj Hk) as (u & v & Hu & Hv & E).
  pose proof (Z.gcd_nonneg j k) as Hg.
  pose proof (pow_one_mul n a j u Hn ltac:(lia) Hu Ej) as E1.
  rewrite (Z.mul_comm j u), E in E1.
  rewrite Z.pow_add_r in E1; [|assumption|nia].
  rewrite <- Z.mul_mod_idemp_r, (Z.mul_comm v k) in E1 by lia.
  rewrite (pow_one_mul n a k v Hn ltac:(lia) Hv Ek), Z.mul_1_r in E1.
  assumption.
Qed.

(** The test on the prime factors of [n - 1]: when [a^(n-1) = 1] and no
    [a^((n-1)/f)] is 1, every exponent that sends [a] to 1 is a multiple of
    [n - 1]. *)
Lemma order_divides (n a k : Z) :
  1 < n -> a ^ (n - 1) mod n = 1 ->
  (forall f : Z, Z.prime f -> (f | n - 1) -> a ^ ((n - 1) / f) mod n <> 1) ->
  0 < k -> a ^ k mod n = 1 -> (n - 1 | k).
Proof.
  intros Hn E1 Hf Hk Ek.
  destruct (Z.eq_dec n 2) as [->|Hn2]; [apply Z.divide_1_l|].
  pose proof (pow_gcd_one n a (n - 1) k Hn ltac:(lia) Hk E1 Ek) as Eg.
  pose proof (Z.gcd_divide_l (n - 1) k) as [c Hc].
  pose proof (Z.gcd_divide_r (n - 1) k) as Hgk.
  pose proof (Z.gcd_nonneg (n - 1) k) as Hg0.
  set (g := Z.gcd (n - 1) k) in *.
  assert (Hgpos : 0 < g).
  { destruct (Z.eq_dec g 0) as [G|G]; [rewrite G in Hc; lia | lia]. }
  assert (Hcpos : 0 < c) by nia.
  destruct (Z.eq_dec c 1) as [->|Hc1].
  - replace (n - 1) with g by lia. assumption.
  - exfalso. destruct (prime_divisor_exists c ltac:(lia)) as (f & Hpf & [c' Hc']).
    pose proof (Z.prime_ge_2 f Hpf).
    apply (Hf f Hpf).
    + exists (c' * g). lia.
    + replace ((n - 1) / f) with (g * c').
      * apply pow_one_mul; [lia | lia | nia | exact Eg].
      * apply Z.div_unique_exact; [lia | nia].
Qed.

(** An element has order [k] modulo [n]. *)
Definition has_order (n a k : Z) : Prop :=
  0 < k /\ a ^ k mod n = 1 /\ forall j : Z, 0 < j < k -> a ^ j mod n <> 1.

Lemma has_order_by_factors (n a : Z) :
  2 < n -> a ^ (n - 1) mod n = 1 ->
  (forall f : Z, Z.prime f -> (f | n - 1) -> a ^ ((n - 1) / f) mod n <> 1) ->
  has_order n a (n - 1).
Proof.
  intros Hn E1 Hf. split; [lia|]. split; [assumption|].
  intros j Hj Ej.
  pose proof (order_divides n a j ltac:(lia) E1 Hf ltac:(lia) Ej) as Hd.
  apply Z.divide_pos_le in Hd; lia.
Qed.

(** Euler's theorem, read off the library's group of units. *)
Lemma euler_units (n a : Z) :
  1 < n -> Z.gcd a n = 1 ->
  a ^ Z.of_nat (length (Zmod.invertibles n)) mod n = 1.
Proof.
  intros Hn Hg.
  set (x := Zmod.of_Z n a).
  assert (Hx : Z.coprime (Zmod.unsigned x) n).
  { unfold x. rewrite Zmod.unsigned_of_Z. now apply Z.coprime_mod_l_iff. }
  pose proof (Zstar.euler (Zstar.of_Zmod x)) as E.
  apply (f_equal Zstar.to_Zmod) in E.
  rewrite Zstar.to_Zmod_pow, Zstar.to_Zmod_of_Zmod, Zstar.to_Zmod_1 in E by assumption.
  apply (f_equal Zmod.unsigned) in E.
  rewrite Zmod.unsigned_pow_nonneg_r in E by lia.
  rewrite <- (Zstar.to_Zmod_elements n), length_map.
  unfold x in E. rewrite Zmod.unsigned_of_Z, Z.mod_pow_l in E.
  rewrite E. apply Zmod.unsigned_1_pos. lia.
Qed.

Lemma units_count (n : Z) :
  1 < n ->
  0 < Z.of_nat (length (Zmod.invertibles n)) /\
  ((exists d : Z, 1 < d < n /\ (d | n)) ->
   Z.of_nat (length (Zmod.invertibles n)) <= n - 2).
Proof.
  intros Hn. split.
  - assert (H1 : In (Zmod.of_Z n 1) (Zmod.invertibles n)).
    { apply Zmod.in_invertibles. rewrite Zmod.unsigned_of_Z.
      rewrite Z.mod_small by lia. apply Z.coprime_1_l. }
    destruct (Zmod.invertibles n); [contradiction | cbn [length]; lia].
  - intros (d & Hd & Hdn).
    assert (H0 : ~ In (Zmod.of_Z n 0) (Zmod.invertibles n)).
    { rewrite Zmod.in_invertibles, Zmod.unsigned_of_Z, Z.mod_0_l by lia.
      unfold Z.coprime. rewrite Z.gcd_0_l. lia. }
    assert (Hdi : ~ In (Zmod.of_Z n d) (Zmod.invertibles n)).
    { rewrite Zmod.in_invertibles, Zmod.unsigned_of_Z, Z.mod_small by lia.
      unfold Z.coprime. intros G.
      pose proof (Z.gcd_greatest d n d (Z.divide_refl d) Hdn) as Hdg.
      rewrite G in Hdg. apply Z.divide_1_r_nonneg in Hdg; lia. }
    assert (Hne : Zmod.of_Z n 0 <> Zmod.of_Z n d).
    { intros Heq. apply (f_equal Zmod.unsigned) in Heq.
      rewrite !Zmod.unsigned_of_Z, Z.mod_0_l, Z.mod_small in Heq by lia. lia. }
    assert (ND : NoDup (Zmod.of_Z n 0 :: Zmod.of_Z n d :: Zmod.invertibles n)).
    { constructor.
      - intros [H | H]; [now apply Hne | contradiction].
      - constructor; [assumption | apply Zmod.NoDup_invertibles]. }
    apply NoDup_incl_length with (l' := Zmod.elements n) in ND.
    + rewrite Zmod.length_elements in ND. cbn [length] in ND. lia.
    + intros y _. apply Zmod.in_elements. lia.
Qed.

(** Lucas' test: an [a] of order [n - 1] modulo [n] makes [n] prime. *)
Lemma lucas_prime (n a : Z) :
  2 < n -> a ^ (n - 1) mod n = 1 ->
  (forall f : Z, Z.prime f -> (f | n - 1) -> a ^ ((n - 1) / f) mod n <> 1) ->
  Z.prime n.
Proof.
  intros Hn E1 Hf.
  assert (Hg : Z.gcd a n = 1).
  { apply Z.bezout_1_gcd.
    pose proof (Z.div_mod (a ^ (n - 1)) n ltac:(lia)) as Hdm. rewrite E1 in Hdm.
    replace (n - 1) with (Z.succ (n - 2)) in Hdm by lia.
    rewrite Z.pow_succ_r in Hdm by lia.
    exists (a ^ (n - 2)), (- (a * a ^ (n - 2) / n)). lia. }
  pose proof (euler_units n a ltac:(lia) Hg) as Ee.
  destruct (units_count n ltac:(lia)) as [Hpos Hsmall].
  pose proof (order_divides n a _ ltac:(lia) E1 Hf Hpos Ee) as Hd.
  apply Z.divide_pos_le in Hd; [|assumption].
  destruct (prime_dec_bool n) as [Hp | Hnp]; [assumption|].
  specialize (Hsmall (composite_divisor n ltac:(lia) Hnp)). lia.
Qed.

Lemma prime_divides_pow (f x : Z) (k : nat) :
  Z.prime f -> (f | x ^ Z.of_nat k) -> (f | x).
Proof.
  intros Hp. induction k as [|k IH].
  - simpl. intros Hd. pose proof (Z.prime_ge_2 f Hp).
    apply Z.divide_1_r_nonneg in Hd; lia.
  - rewrite Nat2Z.inj_succ, Z.pow_succ_r by lia. intros Hd.
    apply (Z.divide_prime_mul _ _ _ Hp) in Hd as [Hd | Hd]; auto.
Qed.

(** Lucas' test for [n = 2^i * 3^j + 1]: only 2 and 3 have to be tried. *)
Lemma pierpont_prime (i j : nat) (a : Z) :
  let n := 2 ^ Z.of_nat i * 3 ^ Z.of_nat j + 1 in
  2 < n ->
  Zpow_mod a (n - 1) n = 1 ->
  Zpow_mod a ((n - 1) / 2) n <> 1 ->
  Zpow_mod a ((n - 1) / 3) n <> 1 ->
  Z.prime n.
Proof.
  intros n Hn E1 H2 H3. rewrite Zpow_mod_correct in E1, H2, H3 by lia.
  apply (lucas_prime n a Hn E1).
  intros f Hp Hd. unfold n in Hd.
  replace (2 ^ Z.of_nat i * 3 ^ Z.of_nat j + 1 - 1)
    with (2 ^ Z.of_nat i * 3 ^ Z.of_nat j) in Hd by lia.
  apply (Z.divide_prime_mul _ _ _ Hp) in Hd as [Hd | Hd];
    apply prime_divides_pow in Hd; try assumption.
  - apply (Z.divide_prime_prime f 2 Hp Z.prime_2) in Hd. now subst f.
  - apply (Z.divide_prime_prime f 3 Hp Z.prime_3) in Hd. now subst f.
Qed.

(** Two primes of 131 and 130 bits. *)
Lemma prime_2_18_3_71 : Z.prime (2 ^ 18 * 3 ^ 71 + 1).
Proof.
  apply (pierpont_prime 18 71 7); vm_compute; [reflexivity | reflexivity | discriminate | discriminate].
Qed.

Lemma prime_2_19_3_70 : Z.prime (2 ^ 19 * 3 ^ 70 + 1).
Proof.
  apply (pierpont_prime 19 70 5); vm_compute; [reflexivity | reflexivity | discriminate | discriminate].
Qed.

(** The witness of C1: two distinct primes of 131 and 130 bits, the message
    [hello]. *)
Lemma rsa_sign_verify_witness :
  let p := 2 ^ 18 * 3 ^ 71 + 1 in
  let q := 2 ^ 19 * 3 ^ 70 + 1 in
  let d := 1610004903155789221697795911457727383681719891790459760993460749867626962812929 in
  let keys := {| RSAsignature.public := (65537, p * q);
                 RSAsignature.private := (d, p * q) |} in
  exists e d : Z,
    RSAsignature.public keys = (e, p * q) /\
    RSAsignature.private keys = (d, p * q) /\
    RSAsignature.sign "hello" (RSAsignature.private keys)
      = Returns (RSAsignature.hash_message "hello" ^ d mod (p * q)) /\
    RSAsignature.verify "hello"
      (RSAsignature.hash_message "hello" ^ d mod (p * q))
      (RSAsignature.public keys) = Returns true.
Proof.
  intros p q d keys.
  apply (rsa_sign_verify 262 [p; 2; 3; 5; 7; 11; q; 2; 3; 5; 7; 11] [] [] p q keys "hello").
  - vm_compute. reflexivity.
  - vm_compute. reflexivity.
  - exact prime_2_18_3_71.
  - exact prime_2_19_3_70.
  - vm_compute. discriminate.
  - vm_compute. reflexivity.
Defined.

(** C1 as stated fails: Miller-Rabin accepts the composite
    [p = 18446744073709553543 * 55340232221128660627] when the five witnesses
    drawn are strong liars for it, and with the prime [q] below the key pair
    that [generate_keypair] returns signs [hello] with a signature that
    [verify] rejects. *)
Lemma rsa_sign_verify_counterexample :
  let p := 1020847100762815603634485314377732451461 in
  let q := 1361129467683753853853498429727072845993 in
  let tape :=
    [p; 19922483599606317826449; 112894073731102467683176;
     431653811324803552906225; 1289980813074509079262026;
     3254005654602365244985249; q; 2; 3; 5; 7; 11] in
  let d := 1217558138205537368561919878380186497981567220351642496163147961469316814452193 in
  let s := 446014712804020040281071789882679966934494081894476150130782633548581428659663 in
  let keys := {| RSAsignature.public := (65537, p * q);
                 RSAsignature.private := (d, p * q) |} in
  p = 18446744073709553543 * 55340232221128660627 /\
  RSAsignature.generate_keypair 262 tape = Returns (keys, []) /\
  (65537 * d) mod ((p - 1) * (q - 1)) = 1 /\
  (0 <=? RSAsignature.hash_message "hello") = true /\
  (RSAsignature.hash_message "hello" <? p * q) = true /\
  RSAsignature.sign "hello" (RSAsignature.private keys) = Returns s /\
  RSAsignature.verify "hello" s (RSAsignature.public keys) = Returns false.
Proof.
  cbn zeta.
  split; [vm_compute; reflexivity|]. split; [vm_compute; reflexivity|].
  split; [vm_compute; reflexivity|]. split; [vm_compute; reflexivity|].
  split; [vm_compute; reflexivity|]. split; vm_compute; reflexivity.
Qed.

(** ** ElGamal signatures *)

Lemma first_such_found (test : Z -> outcome bool) (l : list Z) (v : Z) :
  first_such test l = Returns (Some v) -> In v l /\ test v = Returns true.
Proof.
  induction l as [|a l IH]; cbn [first_such]; [discriminate|].
  destruct (test a) as [[|]| |] eqn:E; cbn [obind]; try discriminate.
  - intros [= <-]. split; [now left | assumption].
  - intros H. destruct (IH H). split; [now right | assumption].
Qed.


Lemma unit_power_nonzero (p g k : Z) :
  1 < p -> g ^ (p - 1) mod p = 1 -> 0 <= k -> g ^ k mod p <> 0.
Proof.
  intros Hp Hg Hk E.
  destruct (Z.eq_dec p 2) as [->|Hp2].
  - change (2 - 1) with 1 in Hg. rewrite Z.pow_1_r in Hg.
    rewrite <- Z.mod_pow_l, Hg, Z.pow_1_l in E by assumption. discriminate.
  - pose proof (pow_one_mul p g (p - 1) k Hp ltac:(lia) Hk Hg) as H1.
    rewrite Z.mul_comm, Z.pow_mul_r, <- Z.mod_pow_l, E in H1 by lia.
    rewrite Z.pow_0_l, Z.mod_0_l in H1 by lia. discriminate.
Qed.







Example elgamal_sign_verify_hello :
  let keys := {| ElGamalSignature.p := 1009; ElGamalSignature.g := 11;
                 ElGamalSignature.y := 510; ElGamalSignature.x := 123 |} in
  ElGamalSignature.sign "hello" keys [5] = Returns ((620, 458), []) /\
  ElGamalSignature.verify "hello" (620, 458) keys = Returns true.
Proof. split; vm_compute; reflexivity. Qed.


(** Besides, [sign] does not draw again when [s] comes out as 0, and
    [verify] rejects such a signature: here the modulus 1009 is prime. *)
Lemma elgamal_sign_zero_s :
  let keys := {| ElGamalSignature.p := 1009; ElGamalSignature.g := 11;
                 ElGamalSignature.y := 828; ElGamalSignature.x := 305 |} in
  ElGamalSignature.generate_keypair 1000 10000 [1009; 2; 3; 5; 7; 11; 305]
    = Returns (keys, []) /\
  Z.gcd 19 (1009 - 1) = 1 /\
  ElGamalSignature.sign "hello" keys [19] = Returns ((902, 0), []) /\
  ElGamalSignature.verify "hello" (902, 0) keys = Returns false.
Proof.
  cbn zeta. split; [vm_compute; reflexivity|]. split; [reflexivity|].
  split; vm_compute; reflexivity.
Qed.

(** ** ElGamal encryption *)

Lemma mod_pow_loop_correct (e : positive) (result base modulus : Z) :
  modulus <> 0 ->
  ElGamalCrypto.mod_pow_loop e result base modulus
  = (result * base ^ Zpos e) mod modulus.
Proof.
  intros Hm. revert result base.
  induction e as [e IH | e IH |]; intros result base; cbn [ElGamalCrypto.mod_pow_loop].
  - rewrite IH, Pos2Z.inj_xI.
    rewrite Z.mul_mod_idemp_l by assumption.
    rewrite <- Z.mul_mod_idemp_r, Z.mod_pow_l, Z.mul_mod_idemp_r by assumption.
    f_equal. rewrite Z.pow_add_r, Z.pow_1_r, Z.pow_mul_r, Z.pow_2_r by lia. ring.
  - rewrite IH, Pos2Z.inj_xO.
    rewrite <- Z.mul_mod_idemp_r, Z.mod_pow_l, Z.mul_mod_idemp_r by assumption.
    f_equal. rewrite Z.pow_mul_r, Z.pow_2_r by lia. ring.
  - now rewrite Z.pow_1_r.
Qed.

(** [mod_pow] of [gamel.py] computes the modular power. *)
Lemma mod_pow_returns (base exponent modulus : Z) :
  0 <= exponent -> 1 <= modulus ->
  ElGamalCrypto.mod_pow base exponent modulus = Returns (base ^ exponent mod modulus).
Proof.
  intros He Hm. unfold ElGamalCrypto.mod_pow.
  destruct (Z.eqb_spec modulus 1) as [->|Hm1]; [now rewrite Z.mod_1_r|].
  rewrite mod_returns by lia. cbn [obind].
  destruct exponent as [|e|e]; [| |lia].
  - rewrite Z.pow_0_r, Z.mod_small by lia. reflexivity.
  - rewrite mod_pow_loop_correct, Z.mul_1_l, Z.mod_pow_l by lia. reflexivity.
Qed.

Lemma find_generator_gamel_range (p g : Z) :
  ElGamalCrypto.find_generator p = Returns g -> 3 <= p -> 2 <= g < p.
Proof.
  unfold ElGamalCrypto.find_generator. intros H Hp.
  destruct (first_such _ (Py.range 2 p)) as [[v|]| |] eqn:E;
    cbn [obind] in H; try discriminate; injection H as <-.
  - apply first_such_found in E as [Hin _]. now apply in_range in Hin.
  - lia.
Qed.

Lemma elgamal_crypto_keys_result
  (min_prime max_prime : Z) (tape tape' : list Z) (keys : ElGamalCrypto.keys) :
  ElGamalCrypto.generate_elgamal_keys min_prime max_prime tape = Returns (keys, tape') ->
  let '(p, g, y, x) := (ElGamalCrypto.p keys, ElGamalCrypto.g keys,
                        ElGamalCrypto.y keys, ElGamalCrypto.x keys) in
  3 <= p /\ 2 <= g < p /\ 1 <= x <= p - 2 /\ y = g ^ x mod p.
Proof.
  unfold ElGamalCrypto.generate_elgamal_keys. unfold bind at 1.
  destruct (ElGamalCrypto.generate_prime min_prime max_prime tape)
    as [[p t1]| |] eqn:Ep; try discriminate.
  unfold bind at 1, lift.
  destruct (ElGamalCrypto.find_generator p) as [g| |] eqn:Eg; try discriminate.
  cbn [obind]. unfold bind at 1.
  destruct (Py.randint 1 (p - 2) t1) as [[x t2]| |] eqn:Ex; try discriminate.
  apply randint_returns in Ex as [Hx _].
  unfold bind at 1, lift. rewrite mod_pow_returns by lia. cbn [obind]. unfold ret.
  intros [= <- <-]. cbn [ElGamalCrypto.p ElGamalCrypto.g ElGamalCrypto.y ElGamalCrypto.x].
  pose proof (find_generator_gamel_range p g Eg ltac:(lia)). auto with zarith.
Qed.





(** ** Text: the serialisation of [rsa (1).py] can be read back *)


(** A character that is neither a comma nor outside ASCII. *)
Definition plain (c : ascii) : bool :=
  negb (Ascii.eqb c ",") && (Text.byte_of c <? 128).

Fixpoint all_plain (s : string) : bool :=
  match s with
  | EmptyString => true
  | String c s' => plain c && all_plain s'
  end.



Lemma all_plain_app (s t : string) :
  all_plain (s ++ t) = all_plain s && all_plain t.
Proof.
  induction s as [|c s IH]; simpl; [reflexivity|].
  now rewrite IH, andb_assoc.
Qed.





Lemma sextet_round_trip (i : Z) :
  0 <= i < 64 ->
  Text.char_sextet (Text.sextet_char i) = Some i /\
  Ascii.eqb (Text.sextet_char i) "=" = false.
Proof.
  intros Hi.
  assert (G : forallb (fun i =>
                match Text.char_sextet (Text.sextet_char i) with
                | Some j => (j =? i) && negb (Ascii.eqb (Text.sextet_char i) "=")
                | None => false
                end) (Py.range 0 64) = true) by (vm_compute; reflexivity).
  rewrite forallb_forall in G. specialize (G i (proj2 (in_range 0 64 i) Hi)).
  destruct (Text.char_sextet (Text.sextet_char i)) as [j|]; [|discriminate].
  apply andb_prop in G as [Hj Hne]. apply Z.eqb_eq in Hj. subst j.
  apply negb_true_iff in Hne. now split.
Qed.

Lemma b64_round_trip_list (bs : list Z) :
  Forall (fun b => 0 <= b < 256) bs ->
  Text.b64decode_list (Text.b64encode_list bs) = Some bs.
Proof.
  remember (length bs) as n eqn:En. revert bs En.
  induction n as [n IH] using lt_wf_ind. intros bs En Hbs.
  assert (Pad : Text.char_sextet "=" = None) by reflexivity.
  destruct bs as [|a [|b [|c rest]]].
  - reflexivity.
  - inversion Hbs as [|? ? Ha _]; subst.
    cbn [Text.b64encode_list Text.b64decode_list].
    destruct (sextet_round_trip (a / 4)) as [-> _];
      [split; [apply Z.div_pos | apply Z.div_lt_upper_bound]; lia|].
    destruct (sextet_round_trip (a mod 4 * 16)) as [-> _];
      [pose proof (Z.mod_pos_bound a 4); lia|].
    rewrite Pad. cbn. do 2 f_equal.
    pose proof (Z.div_mod a 4 ltac:(lia)).
    rewrite Z.div_mul by lia. lia.
  - inversion Hbs as [|? ? Ha Hbs']; subst. inversion Hbs' as [|? ? Hb _]; subst.
    cbn [Text.b64encode_list Text.b64decode_list].
    destruct (sextet_round_trip (a / 4)) as [-> _];
      [split; [apply Z.div_pos | apply Z.div_lt_upper_bound]; lia|].
    destruct (sextet_round_trip (a mod 4 * 16 + b / 16)) as [-> _];
      [Z.div_mod_to_equations; lia|].
    destruct (sextet_round_trip (b mod 16 * 4)) as [-> _];
      [Z.div_mod_to_equations; lia|].
    rewrite Pad. cbn [Ascii.eqb Bool.eqb]. cbn.
    f_equal. f_equal; [|f_equal]; Z.div_mod_to_equations; lia.
  - inversion Hbs as [|? ? Ha Hbs']; subst. inversion Hbs' as [|? ? Hb Hbs'']; subst.
    inversion Hbs'' as [|? ? Hc Hrest]; subst.
    cbn [Text.b64encode_list Text.b64decode_list].
    destruct (sextet_round_trip (a / 4)) as [-> _];
      [split; [apply Z.div_pos | apply Z.div_lt_upper_bound]; lia|].
    destruct (sextet_round_trip (a mod 4 * 16 + b / 16)) as [-> _];
      [Z.div_mod_to_equations; lia|].
    destruct (sextet_round_trip (b mod 16 * 4 + c / 64)) as [-> _];
      [Z.div_mod_to_equations; lia|].
    destruct (sextet_round_trip (c mod 64)) as [-> _];
      [Z.div_mod_to_equations; lia|].
    rewrite (IH (length rest) ltac:(cbn [length]; lia) rest eq_refl Hrest).
    f_equal. f_equal; [|f_equal; [|f_equal]]; Z.div_mod_to_equations; lia.
Qed.


(** ** RSA encryption *)








Example rsa_encrypt_decrypt_hi :
  RSACrypto.generate_rsa_keys [1009; 1013]
    = Returns (((65537, 1022117), (832193, 1022117)), []) /\
  RSACrypto.encrypt_rsa [72; 105] (65537, 1022117) = Returns "OTI5NDQsODcwMDYw"%string /\
  RSACrypto.decrypt_rsa "OTI5NDQsODcwMDYw" (832193, 1022117) = Returns [72; 105].
Proof.
  split; [vm_compute; reflexivity|]. split; vm_compute; reflexivity.
Qed.


(** ** Primitive roots *)

(** The group of units of a finite field is cyclic; for the field of
    integers modulo a prime this gives an element no power of which, below
    the order of the group, is 1. *)
Module PrimitiveRoot.

Import ssreflect ssrfun ssrbool eqtype ssrnat seq div choice.
Import fintype prime finset fingroup cyclic zmodp ssralg finalg finfield.
Import GroupScope GRing.Theory.

Lemma unit_generator (p : nat) :
  prime p ->
  exists g : nat,
    (0 < g < p)%N /\ forall k : nat, (0 < k < p.-1)%N -> (g ^ k %% p)%N <> 1%N.
Proof.
move=> p_pr.
have /cyclicP[x Gx] := field_unit_group_cyclic [set: {unit 'F_p}]%G.
have ox : #[x] = p.-1 by rw orderE -Gx card_finField_unit card_Fp.
exists (val (val x)); split.
  apply/andP; split.
    have := valP x; rw unitfE => nz.
    by rw lt0n; apply: contra nz => /eqP z; apply/eqP/val_inj.
  by have := ltn_ord (val x); rw [X in (_ < X)%N]Fp_cast.
move=> k /andP[k0 kp] e.
have xk : x ^+ k = 1.
  apply: val_inj; rw FinRing.val_unitX FinRing.val_unit1.
  rw -[val x]natr_Zp -natrX; apply: val_inj.
  have h := val_Fp_nat p_pr (val (val x) ^ k); rw e in h.
  exact: h.
move: xk => /eqP; rw -order_dvdn ox => d.
by have := dvdn_leq k0 d; rw leqNgt kp.
Qed.

Lemma modn_mod (m d : nat) :
  (0 < d)%N -> Z.of_nat (m %% d) = (Z.of_nat m mod Z.of_nat d)%Z.
Proof.
move=> d0.
have lt := ltn_pmod m d0.
have eq := divn_eq m d.
apply: (Z.mod_unique _ _ (Z.of_nat (m %/ d))).
  left; split; first exact: Nat2Z.is_nonneg.
  by apply/Nat2Z.inj_lt/ltP.
by rw {1}eq Nat2Z.inj_add Nat2Z.inj_mul Z.mul_comm.
Qed.

Lemma expn_pow (g k : nat) : Z.of_nat (g ^ k) = (Z.of_nat g ^ Z.of_nat k)%Z.
Proof.
elim: k => [|k IH]; first by [].
rw expnS Nat2Z.inj_mul IH Nat2Z.inj_succ Z.pow_succ_r //.
exact: Nat2Z.is_nonneg.
Qed.

Lemma prime_to_nat (p : Z) : Z.prime p -> prime (Z.to_nat p).
Proof.
move=> pr.
have p1 : (1 < p)%Z by case: pr.
apply/primeP; split; first by apply/ltP; lia.
move=> d /dvdnP[c e]; apply/orP.
have dv : (Z.of_nat d | p)%Z.
  exists (Z.of_nat c).
  have <- : Z.of_nat (c * d) = (Z.of_nat c * Z.of_nat d)%Z by exact: Nat2Z.inj_mul.
  by rw -e Z2Nat.id; lia.
case: (Z.divide_prime_r _ _ pr dv) => [h|[h|[h|h]]].
- lia.
- lia.
- by left; apply/eqP; lia.
- by right; apply/eqP; lia.
Qed.

Lemma primitive_root_exists (p : Z) :
  Z.prime p ->
  exists g : Z,
    (1 <= g < p)%Z /\ forall k : Z, (0 < k < p - 1)%Z -> (g ^ k mod p)%Z <> 1%Z.
Proof.
move=> pr.
have p1 : (1 < p)%Z by case: pr.
have [g [/andP[g0 gp] hg]] := unit_generator _ (prime_to_nat _ pr).
move/ltP: g0 => g0; move/ltP: gp => gp.
exists (Z.of_nat g); split; first by lia.
move=> k [k0 kp] e.
apply: (hg (Z.to_nat k)).
  by apply/andP; split; apply/ltP; rw -?subn1 -?minusE; lia.
apply: Nat2Z.inj.
have p0 : (0 < Z.to_nat p)%N by apply/ltP; lia.
rw (modn_mod _ _ p0).
by rw expn_pow !Z2Nat.id //; lia.
Qed.

End PrimitiveRoot.

(** ** Generators *)

Lemma first_such_total (test : Z -> outcome bool) (l : list Z) :
  (forall x : Z, In x l -> exists b : bool, test x = Returns b) ->
  (exists v : Z, first_such test l = Returns (Some v)) \/
  (first_such test l = Returns None /\
   forall x : Z, In x l -> test x = Returns false).
Proof.
  induction l as [|a l IH]; intros H; cbn [first_such].
  - right. split; [reflexivity | intros x []].
  - destruct (H a (or_introl eq_refl)) as [[|] E]; rewrite E; cbn [obind].
    + left. now exists a.
    + destruct IH as [IH | [IH1 IH2]].
      * intros x Hx. apply H. now right.
      * now left.
      * right. split; [assumption|]. intros x [<-|Hx]; auto.
Qed.

(** The scan stops at the first candidate that passes. *)
Lemma first_such_least (test : Z -> outcome bool) (lo v : Z) (n a : nat) :
  first_such test (map (fun i => lo + Z.of_nat i) (seq a n)) = Returns (Some v) ->
  forall x : Z, lo + Z.of_nat a <= x < v -> test x = Returns false.
Proof.
  revert a. induction n as [|n IH]; intros a; cbn [seq map first_such]; [discriminate|].
  destruct (test (lo + Z.of_nat a)) as [[|]| |] eqn:E; cbn [obind]; try discriminate.
  - intros [= <-] x Hx. lia.
  - intros H x Hx. destruct (Z.eq_dec x (lo + Z.of_nat a)) as [->|Hne]; [assumption|].
    apply (IH (S a) H). lia.
Qed.

Lemma first_such_range_least (test : Z -> outcome bool) (lo hi v : Z) :
  first_such test (Py.range lo hi) = Returns (Some v) ->
  forall x : Z, lo <= x < v -> test x = Returns false.
Proof.
  unfold Py.range. intros H x Hx.
  apply (first_such_least test lo v _ 0%nat H). cbn. lia.
Qed.

Lemma passes_factors_eq (g phi p : Z) (factors : list Z) :
  1 <= p -> 0 <= phi -> (forall f : Z, In f factors -> 0 < f) ->
  ElGamalCrypto.passes_factors g phi p factors
  = Returns (forallb (fun f => negb (g ^ (phi / f) mod p =? 1)) factors).
Proof.
  intros Hp Hphi. induction factors as [|f l IH]; intros Hf;
    cbn [ElGamalCrypto.passes_factors forallb]; [reflexivity|].
  rewrite mod_pow_returns;
    [| apply Z.div_pos; [assumption | apply Hf; now left] | assumption].
  cbn [obind]. destruct (g ^ (phi / f) mod p =? 1); cbn [negb andb]; [reflexivity|].
  apply IH. intros f' Hf'. apply Hf. now right.
Qed.

(** The test of [gamel.py] singles out the elements of order [p - 1]. *)
Lemma full_order_test (p g : Z) :
  Z.prime p -> 3 <= p -> 2 <= g < p ->
  forallb (fun f => negb (g ^ ((p - 1) / f) mod p =? 1)) (prime_factors (p - 1)) = true
  <-> has_order p g (p - 1).
Proof.
  intros Hp Hp3 Hg.
  destruct (prime_factors_spec (p - 1) ltac:(lia)) as (Hin & _ & _).
  assert (F : g ^ (p - 1) mod p = 1)
    by (apply Z.fermat_nz; [assumption | rewrite Z.mod_small; lia]).
  rewrite forallb_forall. split.
  - intros H. apply has_order_by_factors; [lia | assumption |].
    intros f Hf Hd E. specialize (H f (proj2 (Hin f) (conj Hf Hd))).
    rewrite E in H. discriminate.
  - intros (_ & _ & H) f Hf. apply Hin in Hf as [Hf Hd].
    apply negb_true_iff, Z.eqb_neq. apply H.
    pose proof (Z.prime_ge_2 f Hf). destruct Hd as [c Hc].
    rewrite Hc, Z.div_mul by lia. nia.
Qed.

(** On a prime modulus the second half of the test of [Elgamelsignature.py]
    always holds, by Fermat's little theorem. *)
Lemma half_order_check_eq (p g : Z) :
  Z.prime p -> 3 <= p -> 2 <= g < p ->
  ElGamalSignature.half_order_check p g
  = Returns (negb (g ^ ((p - 1) / 2) mod p =? 1)).
Proof.
  intros Hp Hp3 Hg. unfold ElGamalSignature.half_order_check.
  rewrite pow_returns by (try lia; apply Z.div_pos; lia). cbn [obind].
  destruct (negb _); [|reflexivity].
  rewrite pow_returns by lia. cbn [obind].
  rewrite Z.fermat_nz by (try assumption; rewrite Z.mod_small; lia). reflexivity.
Qed.

Lemma powers_differ (p g i j : Z) :
  Z.prime p -> has_order p g (p - 1) -> 0 <= i < j -> j < p - 1 ->
  g ^ i mod p <> g ^ j mod p.
Proof.
  intros Hp (Hk & E1 & Hmin) Hij Hj E.
  pose proof (Z.prime_ge_2 p Hp).
  assert (D : (p | g ^ i * (g ^ (j - i) - 1))).
  { apply Z.mod_divide; [lia|].
    replace (g ^ i * (g ^ (j - i) - 1)) with (g ^ j - g ^ i).
    - rewrite Zminus_mod, E, Z.sub_diag. reflexivity.
    - rewrite Z.mul_sub_distr_l, <- Z.pow_add_r by lia.
      replace (i + (j - i)) with j by lia. ring. }
  apply (Z.divide_prime_mul _ _ _ Hp) in D. destruct D as [D|D].
  - apply Z.mod_divide in D; [|lia].
    apply (unit_power_nonzero p g i); try assumption; lia.
  - apply (Hmin (j - i)); [lia|].
    destruct D as [c Hc]. replace (g ^ (j - i)) with (1 + c * p) by lia.
    rewrite Z.mod_add by lia. apply Z.mod_small; lia.
Qed.

(** The powers of an element of order [p - 1] run through all the residues
    from 1 to [p - 1]. *)
Lemma powers_permutation (p g : Z) :
  Z.prime p -> has_order p g (p - 1) ->
  Permutation (map (fun i => g ^ i mod p) (Py.range 0 (p - 1))) (Py.range 1 p).
Proof.
  intros Hp Ho. pose proof (Z.prime_ge_2 p Hp).
  apply NoDup_Permutation_bis.
  - apply Finite.Injective_map_NoDup_in.
    + intros i j Hi Hj E. apply in_range in Hi, Hj.
      destruct (Z.lt_trichotomy i j) as [L|[L|L]]; [|assumption|].
      * exfalso. apply (powers_differ p g i j); auto; lia.
      * exfalso. apply (powers_differ p g j i); auto; lia.
    + unfold Py.range. apply Finite.Injective_map_NoDup; [|apply seq_NoDup].
      intros a b. lia.
  - unfold Py.range. rewrite !length_map, !length_seq. lia.
  - intros v Hv. apply in_map_iff in Hv as (i & <- & Hi). apply in_range in Hi.
    apply in_range. pose proof (Z.mod_pos_bound (g ^ i) p ltac:(lia)).
    destruct Ho as (_ & E1 & _).
    pose proof (unit_power_nonzero p g i ltac:(lia) E1 ltac:(lia)). lia.
Qed.

Lemma prime_11 : Z.prime 11.
Proof. apply isprime_correct. vm_compute. reflexivity. Qed.

Lemma prime_41 : Z.prime 41.
Proof. apply isprime_correct. vm_compute. reflexivity. Qed.

(** C8, as the code has it. For every odd prime [p], [find_generator] of
    [gamel.py] (the test on every prime factor of [p - 1]) returns the least
    [g] in [2, p - 1] of multiplicative order exactly [p - 1] modulo [p],
    and the powers [g^0, ..., g^(p-2)] modulo [p] are a permutation of
    [1, ..., p - 1]. [find_generator] of [Elgamelsignature.py] (the single
    test on [(p - 1) / 2]) returns the least [g] in [2, p - 1] with
    [g^((p-1)/2) mod p <> 1]; it has [g^(p-1) mod p = 1] and is at most the
    value of the other strategy, but its order need not be [p - 1]. For
    [p = 11] both return 2. *)
Theorem find_generator_spec (p : Z) :
  Z.prime p -> 3 <= p ->
  exists g_full g_half : Z,
    ElGamalCrypto.find_generator p = Returns g_full /\
    ElGamalSignature.find_generator p = Returns g_half /\
    2 <= g_full < p /\
    has_order p g_full (p - 1) /\
    (forall a : Z, 2 <= a < g_full -> ~ has_order p a (p - 1)) /\
    Permutation (map (fun i => g_full ^ i mod p) (Py.range 0 (p - 1)))
                (Py.range 1 p) /\
    2 <= g_half <= g_full /\
    g_half ^ ((p - 1) / 2) mod p <> 1 /\
    g_half ^ (p - 1) mod p = 1 /\
    (forall a : Z, 2 <= a < g_half -> a ^ ((p - 1) / 2) mod p = 1) /\
    (p = 11 -> g_full = 2 /\ g_half = 2).
Proof.
  intros Hp Hp3.
  assert (Hhalf : 0 < (p - 1) / 2 < p - 1).
  { split; [apply Z.div_str_pos; lia | apply Z.div_lt_upper_bound; lia]. }
  destruct (PrimitiveRoot.primitive_root_exists p Hp) as (r & Hr & Hmin).
  assert (Hr2 : 2 <= r).
  { destruct (Z.eq_dec r 1) as [->|]; [|lia].
    exfalso. apply (Hmin 1); [lia|]. rewrite Z.pow_1_r. apply Z.mod_small. lia. }
  assert (Hro : has_order p r (p - 1)).
  { split; [lia|]. split; [|exact Hmin].
    apply Z.fermat_nz; [assumption | rewrite Z.mod_small; lia]. }
  assert (Hpos : forall f : Z, In f (prime_factors (p - 1)) -> 0 < f).
  { intros f Hf. apply (prime_factors_spec (p - 1) ltac:(lia)) in Hf as [Hf _].
    pose proof (Z.prime_ge_2 f Hf). lia. }
  (* the scan of gamel.py *)
  assert (Efull : exists g : Z,
            first_such (fun g => ElGamalCrypto.passes_factors g (p - 1) p
                                   (prime_factors (p - 1))) (Py.range 2 p)
            = Returns (Some g)).
  { destruct (first_such_total
                (fun g => ElGamalCrypto.passes_factors g (p - 1) p (prime_factors (p - 1)))
                (Py.range 2 p)) as [E | [_ E]]; [| exact E |].
    - intros g _. rewrite passes_factors_eq by (try assumption; lia). eauto.
    - exfalso. specialize (E r (proj2 (in_range 2 p r) ltac:(lia))).
      rewrite passes_factors_eq in E by (try assumption; lia).
      rewrite (proj2 (full_order_test p r Hp Hp3 ltac:(lia)) Hro) in E. discriminate. }
  destruct Efull as [g_full Efull].
  pose proof (first_such_range_least _ _ _ _ Efull) as Lfull.
  pose proof Efull as Ffull. apply first_such_found in Ffull as [Hin Hpass].
  apply in_range in Hin.
  rewrite passes_factors_eq in Hpass by (try assumption; lia).
  injection Hpass as Hpass. apply (full_order_test p g_full Hp Hp3 Hin) in Hpass.
  (* the scan of Elgamelsignature.py *)
  assert (Ehalf : exists g : Z,
            first_such (ElGamalSignature.half_order_check p) (Py.range 2 p)
            = Returns (Some g)).
  { destruct (first_such_total (ElGamalSignature.half_order_check p) (Py.range 2 p))
      as [E | [_ E]]; [| exact E |].
    - intros g Hg. apply in_range in Hg.
      rewrite half_order_check_eq by assumption. eauto.
    - exfalso. specialize (E r (proj2 (in_range 2 p r) ltac:(lia))).
      rewrite half_order_check_eq in E by (try assumption; lia).
      injection E as E. apply negb_false_iff, Z.eqb_eq in E.
      now apply (Hmin ((p - 1) / 2)). }
  destruct Ehalf as [g_half Ehalf].
  pose proof (first_such_range_least _ _ _ _ Ehalf) as Lhalf.
  pose proof Ehalf as Fhalf. apply first_such_found in Fhalf as [Hin' Hpass'].
  apply in_range in Hin'.
  rewrite half_order_check_eq in Hpass' by assumption.
  injection Hpass' as Hpass'. apply negb_true_iff, Z.eqb_neq in Hpass'.
  assert (Rfull : ElGamalCrypto.find_generator p = Returns g_full).
  { unfold ElGamalCrypto.find_generator. cbv zeta. rewrite Efull. reflexivity. }
  assert (Rhalf : ElGamalSignature.find_generator p = Returns g_half).
  { unfold ElGamalSignature.find_generator.
    destruct (Z.eqb_spec p 2); [lia|]. rewrite Ehalf. reflexivity. }
  assert (Lhalf' : forall a : Z, 2 <= a < g_half -> a ^ ((p - 1) / 2) mod p = 1).
  { intros a Ha. specialize (Lhalf a Ha).
    rewrite half_order_check_eq in Lhalf by (try assumption; lia).
    injection Lhalf as Lhalf. now apply negb_false_iff, Z.eqb_eq in Lhalf. }
  exists g_full, g_half.
  split; [exact Rfull|]. split; [exact Rhalf|]. split; [exact Hin|].
  split; [exact Hpass|]. split.
  { intros a Ha Hoa. specialize (Lfull a Ha). cbv beta in Lfull.
    rewrite passes_factors_eq in Lfull by (try assumption; lia).
    rewrite (proj2 (full_order_test p a Hp Hp3 ltac:(lia)) Hoa) in Lfull.
    discriminate. }
  split; [now apply powers_permutation|]. split.
  { split; [lia|]. destruct (Z.le_gt_cases g_half g_full) as [|Hlt]; [assumption|].
    exfalso. destruct Hpass as (_ & _ & Hm). apply (Hm ((p - 1) / 2) Hhalf).
    apply Lhalf'. lia. }
  split; [exact Hpass'|]. split.
  { apply Z.fermat_nz; [assumption | rewrite Z.mod_small; lia]. }
  split; [exact Lhalf'|].
  intros ->. vm_compute in Rfull, Rhalf.
  injection Rfull as <-. injection Rhalf as <-. split; reflexivity.
Qed.

(** With [p = 11] both strategies return 2, whose powers are a permutation
    of [1, ..., 10]. *)
Lemma find_generator_spec_witness :
  Z.prime 11 /\ 3 <= 11 /\
  exists g_full g_half : Z,
    ElGamalCrypto.find_generator 11 = Returns g_full /\
    ElGamalSignature.find_generator 11 = Returns g_half /\
    2 <= g_full < 11 /\
    has_order 11 g_full (11 - 1) /\
    (forall a : Z, 2 <= a < g_full -> ~ has_order 11 a (11 - 1)) /\
    Permutation (map (fun i => g_full ^ i mod 11) (Py.range 0 (11 - 1)))
                (Py.range 1 11) /\
    2 <= g_half <= g_full /\
    g_half ^ ((11 - 1) / 2) mod 11 <> 1 /\
    g_half ^ (11 - 1) mod 11 = 1 /\
    (forall a : Z, 2 <= a < g_half -> a ^ ((11 - 1) / 2) mod 11 = 1) /\
    (11 = 11 -> g_full = 2 /\ g_half = 2).
Proof.
  split; [exact prime_11|]. split; [lia|].
  apply (find_generator_spec 11); [exact prime_11 | lia].
Defined.

(** The values at [p = 11], computed. *)
Lemma find_generator_11 :
  ElGamalCrypto.find_generator 11 = Returns 2 /\
  ElGamalSignature.find_generator 11 = Returns 2 /\
  map (fun i => 2 ^ i mod 11) (Py.range 0 10) = [1; 2; 4; 8; 5; 10; 9; 7; 3; 6].
Proof.
  split; [vm_compute; reflexivity|]. split; vm_compute; reflexivity.
Qed.

(** C8 as stated fails for the simplified strategy: modulo the prime 41 it
    returns 3, whose order is 8, not 40; the other strategy returns 6. *)
Lemma find_generator_counterexample :
  Z.prime 41 /\
  ElGamalSignature.find_generator 41 = Returns 3 /\
  has_order 41 3 8 /\
  ~ has_order 41 3 (41 - 1) /\
  ElGamalCrypto.find_generator 41 = Returns 6.
Proof.
  split; [exact prime_41|]. split; [vm_compute; reflexivity|]. split; [|split].
  - split; [lia|]. split; [reflexivity|].
    intros j Hj.
    assert (C : j = 1 \/ j = 2 \/ j = 3 \/ j = 4 \/ j = 5 \/ j = 6 \/ j = 7) by lia.
    destruct C as [->|[->|[->|[->|[->|[->| ->]]]]]]; discriminate.
  - intros (_ & _ & H). apply (H 8); [lia | reflexivity].
  - vm_compute. reflexivity.
Qed.

(** ** Miller-Rabin never rejects a prime *)

Lemma halve_spec (q : positive) (r : nat) :
  let '(q', r') := RSAsignature.halve q r in
  Zpos q * 2 ^ Z.of_nat r = Zpos q' * 2 ^ Z.of_nat r' /\
  Z.odd (Zpos q') = true /\
  (Z.odd (Zpos q) = true -> r' = r) /\
  (Z.odd (Zpos q) = false -> (r < r')%nat).
Proof.
  revert r. induction q as [q IH | q IH |]; intros r; cbn [RSAsignature.halve].
  - repeat split; auto; discriminate.
  - specialize (IH (S r)). destruct (RSAsignature.halve q (S r)) as [q' r'].
    destruct IH as (E & Ho & H1 & H2). split; [|split; [assumption|split]].
    + rewrite <- E, Nat2Z.inj_succ, Z.pow_succ_r by lia. lia.
    + discriminate.
    + intros _. destruct (Z.odd (Zpos q)) eqn:Eo.
      * rewrite (H1 eq_refl). lia.
      * specialize (H2 eq_refl). lia.
  - repeat split; auto; discriminate.
Qed.

(** [n - 1 = d * 2^r] with [d] odd, and [r >= 1] when [n] is odd. *)
Lemma halve_loop_spec (n d : Z) (r : nat) :
  1 < n -> RSAsignature.halve_loop (n - 1) 0 = (d, r) ->
  n - 1 = d * 2 ^ Z.of_nat r /\ 0 < d /\ Z.odd d = true /\
  (Z.odd n = true -> (0 < r)%nat).
Proof.
  intros Hn. unfold RSAsignature.halve_loop.
  destruct (n - 1) as [|q|q] eqn:E; [lia| |lia].
  pose proof (halve_spec q 0) as H.
  destruct (RSAsignature.halve q 0) as [q' r'].
  intros [= <- <-]. destruct H as (H & Ho & _ & H2).
  change (2 ^ Z.of_nat 0) with 1 in H. rewrite Z.mul_1_r in H.
  split; [exact H|]. split; [lia|]. split; [exact Ho|].
  intros Hodd. apply H2.
  replace (Zpos q) with (n - 1) by assumption.
  rewrite Z.odd_sub, Hodd. reflexivity.
Qed.

Lemma square_root_of_one (n x : Z) :
  Z.prime n -> 0 <= x < n -> x ^ 2 mod n = 1 -> x = 1 \/ x = n - 1.
Proof.
  intros Hp Hx E. pose proof (Z.prime_ge_2 n Hp) as Hn.
  assert (D : (n | (x - 1) * (x + 1))).
  { apply Z.mod_divide; [lia|].
    replace ((x - 1) * (x + 1)) with (x ^ 2 - 1) by ring.
    rewrite Zminus_mod, E, (Z.mod_small 1 n) by lia. reflexivity. }
  apply (Z.divide_prime_mul _ _ _ Hp) in D. destruct D as [[c Hc]|[c Hc]].
  - left. assert (c = 0) by nia. lia.
  - right. assert (c = 1) by nia. lia.
Qed.

(** Below a power [x^(2^(c+1))] that is 1, the repeated squares of an [x]
    other than 1 and [n - 1] pass through [n - 1]. *)
Lemma squarings_prime (n : Z) (c : nat) (x : Z) :
  Z.prime n -> 0 <= x < n -> x <> 1 -> x <> n - 1 ->
  x ^ 2 ^ Z.of_nat (S c) mod n = 1 ->
  RSAsignature.squarings c x n = Returns true.
Proof.
  intros Hp. pose proof (Z.prime_ge_2 n Hp) as Hn.
  revert x. induction c as [|c IH]; intros x Hx H1 Hn1 E.
  - exfalso. change (2 ^ Z.of_nat 1) with 2 in E.
    destruct (square_root_of_one n x Hp Hx E); contradiction.
  - cbn [RSAsignature.squarings]. rewrite pow_returns by lia. cbn [obind].
    destruct (Z.eqb_spec (x ^ 2 mod n) (n - 1)) as [|Hne]; [reflexivity|].
    apply IH.
    + apply Z.mod_pos_bound. lia.
    + intros E1. destruct (square_root_of_one n x Hp Hx E1); contradiction.
    + assumption.
    + rewrite Z.mod_pow_l, <- Z.pow_mul_r by lia.
      rewrite <- Z.pow_succ_r by lia. rewrite <- Nat2Z.inj_succ. exact E.
Qed.

Lemma witness_rounds_prime (n d : Z) (r k : nat) (tape : list Z) :
  Z.prime n -> 3 < n -> n - 1 = d * 2 ^ Z.of_nat r -> 0 < d -> (0 < r)%nat ->
  match RSAsignature.witness_rounds k n d r tape with
  | Returns (b, tape') => b = true /\ (length tape <= k + length tape')%nat
  | Raises _ => False
  | Starved => (length tape < k)%nat \/ ~ Forall (fun a => 2 <= a <= n - 2) tape
  end.
Proof.
  intros Hp Hn Hd Hdpos Hr. revert tape.
  induction k as [|k IH]; intros tape; cbn [RSAsignature.witness_rounds].
  - unfold ret. split; [reflexivity | lia].
  - unfold bind at 1. unfold Py.randint.
    destruct (Z.ltb_spec (n - 2) 2) as [|_]; [lia|].
    destruct tape as [|a tape]; [left; cbn; lia|].
    destruct ((2 <=? a) && (a <=? n - 2)) eqn:Ea.
    2:{ right. intros F. inversion F as [|? ? Ha _]; subst.
        apply andb_false_iff in Ea. destruct Ea as [Ea|Ea];
          [apply Z.leb_gt in Ea | apply Z.leb_gt in Ea]; lia. }
    apply andb_true_iff in Ea as [Ea1 Ea2]. apply Z.leb_le in Ea1, Ea2.
    assert (Step : match RSAsignature.witness_rounds k n d r tape with
                   | Returns (b, tape') =>
                       b = true /\ (length (a :: tape) <= S k + length tape')%nat
                   | Raises _ => False
                   | Starved => (length (a :: tape) < S k)%nat \/
                                ~ Forall (fun a => 2 <= a <= n - 2) (a :: tape)
                   end).
    { specialize (IH tape).
      destruct (RSAsignature.witness_rounds k n d r tape) as [[b t]| |].
      - cbn [length]. destruct IH. split; [assumption | lia].
      - assumption.
      - destruct IH as [IH|IH]; [left; cbn [length]; lia|].
        right. intros F. apply IH. now inversion F. }
    unfold bind at 1, lift. rewrite pow_returns by lia. cbn [obind].
    destruct ((a ^ d mod n =? 1) || (a ^ d mod n =? n - 1)) eqn:Ex; [exact Step|].
    apply orb_false_iff in Ex as [Ex1 Ex2]. apply Z.eqb_neq in Ex1, Ex2.
    unfold bind at 1, lift.
    destruct r as [|c]; [lia|].
    replace (S c - 1)%nat with c by lia.
    rewrite (squarings_prime n c (a ^ d mod n) Hp).
    + cbn [obind]. exact Step.
    + apply Z.mod_pos_bound. lia.
    + assumption.
    + assumption.
    + rewrite Z.mod_pow_l, <- Z.pow_mul_r, <- Hd by lia.
      apply Z.fermat_nz; [assumption | rewrite Z.mod_small; lia].
Qed.

Lemma prime_odd (n : Z) : Z.prime n -> 2 < n -> Z.odd n = true.
Proof.
  intros [_ Hp] Hn. destruct (Z.odd n) eqn:E; [reflexivity|].
  exfalso. apply (Hp 2); [lia|].
  apply Z.mod_divide; [lia|]. rewrite Zmod_odd, E. reflexivity.
Qed.

Lemma prime_13 : Z.prime 13.
Proof. apply isprime_correct. vm_compute. reflexivity. Qed.

(** [is_prime] of [RSAsignature.py] and [Elgamelsignature.py] never answers
    [False] on a prime and never raises on it, whatever [random.randint]
    draws; with [k] draws inside [2, n - 2] it answers [True]. *)
Theorem is_prime_accepts_primes (n : Z) (k : nat) (tape : list Z) :
  Z.prime n ->
  (forall (b : bool) (tape' : list Z),
     RSAsignature.is_prime n k tape = Returns (b, tape') -> b = true) /\
  (forall e : exn, RSAsignature.is_prime n k tape <> Raises e) /\
  (Forall (fun a => 2 <= a <= n - 2) tape -> (k <= length tape)%nat ->
   exists tape' : list Z, RSAsignature.is_prime n k tape = Returns (true, tape')) /\
  ElGamalSignature.is_prime n k tape = RSAsignature.is_prime n k tape.
Proof.
  intros Hp. pose proof (Z.prime_ge_2 n Hp) as Hn.
  assert (G : match RSAsignature.is_prime n k tape with
              | Returns (b, tape') => b = true
              | Raises _ => False
              | Starved => (length tape < k)%nat \/
                           ~ Forall (fun a => 2 <= a <= n - 2) tape
              end).
  { unfold RSAsignature.is_prime.
    destruct (Z.leb_spec n 1) as [|_]; [lia|].
    destruct (Z.eqb_spec n 4) as [->|_].
    { exfalso. destruct Hp as [_ Hp]. apply (Hp 2); [lia | now exists 2]. }
    cbn [orb]. destruct (Z.leb_spec n 3) as [|H3]; [reflexivity|].
    destruct (RSAsignature.halve_loop (n - 1) 0) as [d r] eqn:Eh.
    apply halve_loop_spec in Eh as (Hd & Hdpos & _ & Hr); [|lia].
    specialize (Hr (prime_odd n Hp ltac:(lia))).
    pose proof (witness_rounds_prime n d r k tape Hp H3 Hd Hdpos Hr) as W.
    destruct (RSAsignature.witness_rounds k n d r tape) as [[b t]| |]; tauto. }
  split; [|split; [|split; [|reflexivity]]].
  - intros b tape' E. rewrite E in G. exact G.
  - intros e E. rewrite E in G. exact G.
  - intros F Hk. destruct (RSAsignature.is_prime n k tape) as [[b t]| |].
    + subst b. now exists t.
    + contradiction.
    + exfalso. destruct G as [G|G]; [lia | contradiction].
Qed.

Lemma is_prime_accepts_primes_witness :
  Z.prime 13 /\
  (forall (b : bool) (tape' : list Z),
     RSAsignature.is_prime 13 5 [2; 3; 4; 5; 6] = Returns (b, tape') -> b = true) /\
  (forall e : exn, RSAsignature.is_prime 13 5 [2; 3; 4; 5; 6] <> Raises e) /\
  (Forall (fun a => 2 <= a <= 13 - 2) [2; 3; 4; 5; 6] ->
   (5 <= length [2; 3; 4; 5; 6])%nat ->
   exists tape' : list Z,
     RSAsignature.is_prime 13 5 [2; 3; 4; 5; 6] = Returns (true, tape')) /\
  ElGamalSignature.is_prime 13 5 [2; 3; 4; 5; 6]
  = RSAsignature.is_prime 13 5 [2; 3; 4; 5; 6].
Proof.
  split; [exact prime_13|].
  apply (is_prime_accepts_primes 13 5 [2; 3; 4; 5; 6]). exact prime_13.
Defined.

(** [is_prime] of [gamel.py] never answers [False] on a prime either, and
    never raises on it; with [k] draws inside [2, n - 2] it answers [True]. *)
Theorem is_prime_gamel_accepts_primes (n : Z) (k : nat) (tape : list Z) :
  Z.prime n ->
  (forall (b : bool) (tape' : list Z),
     ElGamalCrypto.is_prime n k tape = Returns (b, tape') -> b = true) /\
  (forall e : exn, ElGamalCrypto.is_prime n k tape <> Raises e) /\
  (Forall (fun a => 2 <= a <= n - 2) tape -> (k <= length tape)%nat ->
   exists tape' : list Z, ElGamalCrypto.is_prime n k tape = Returns (true, tape')).
Proof.
  intros Hp. pose proof (Z.prime_ge_2 n Hp) as Hn.
  assert (G : match ElGamalCrypto.is_prime n k tape with
              | Returns (b, tape') => b = true
              | Raises _ => False
              | Starved => (length tape < k)%nat \/
                           ~ Forall (fun a => 2 <= a <= n - 2) tape
              end).
  { unfold ElGamalCrypto.is_prime.
    destruct (Z.ltb_spec n 2) as [|_]; [lia|].
    destruct ((n =? 2) || (n =? 3)) eqn:E23; [reflexivity|].
    apply orb_false_iff in E23 as [E2 E3]. apply Z.eqb_neq in E2, E3.
    pose proof (prime_odd n Hp ltac:(lia)) as Ho.
    rewrite Zmod_odd, Ho. cbn [Z.eqb].
    destruct (RSAsignature.halve_loop (n - 1) 0) as [d r] eqn:Eh.
    apply halve_loop_spec in Eh as (Hd & Hdpos & _ & Hr); [|lia].
    specialize (Hr Ho).
    pose proof (witness_rounds_prime n d r k tape Hp ltac:(lia) Hd Hdpos Hr) as W.
    destruct (RSAsignature.witness_rounds k n d r tape) as [[b t]| |]; tauto. }
  split; [|split].
  - intros b tape' E. rewrite E in G. exact G.
  - intros e E. rewrite E in G. exact G.
  - intros F Hk. destruct (ElGamalCrypto.is_prime n k tape) as [[b t]| |].
    + subst b. now exists t.
    + contradiction.
    + exfalso. destruct G as [G|G]; [lia | contradiction].
Qed.

Lemma is_prime_gamel_accepts_primes_witness :
  Z.prime 13 /\
  (forall (b : bool) (tape' : list Z),
     ElGamalCrypto.is_prime 13 5 [2; 3; 4; 5; 6] = Returns (b, tape') -> b = true) /\
  (forall e : exn, ElGamalCrypto.is_prime 13 5 [2; 3; 4; 5; 6] <> Raises e) /\
  (Forall (fun a => 2 <= a <= 13 - 2) [2; 3; 4; 5; 6] ->
   (5 <= length [2; 3; 4; 5; 6])%nat ->
   exists tape' : list Z,
     ElGamalCrypto.is_prime 13 5 [2; 3; 4; 5; 6] = Returns (true, tape')).
Proof.
  split; [exact prime_13|].
  apply (is_prime_gamel_accepts_primes 13 5 [2; 3; 4; 5; 6]). exact prime_13.
Defined.

(** ** Euclid's algorithm, the modular power and the inverse *)

Lemma gcd_negative (a b : Z) : a < 0 -> b <= 0 -> gcd a b = - Z.gcd a b.
Proof.
  funelim (gcd a b); intros Ha Hb.
  - clear Heq Heqcall. subst b. rewrite Z.gcd_0_r. lia.
  - clear Heq Heqcall.
    pose proof (Z.mod_neg_bound a b ltac:(lia)) as Hm.
    rewrite H by lia.
    rewrite Z.gcd_comm, Z.gcd_mod by assumption. now rewrite Z.gcd_comm.
Qed.

(** [gcd(a, b)] of [RSAsignature.py] and [Elgamelsignature.py] returns the
    greatest common divisor when [b > 0], its opposite when [b < 0], and [a]
    itself, whatever its sign, when [b = 0]. *)
Theorem gcd_sign (a b : Z) :
  (0 < b -> gcd a b = Z.gcd a b) /\
  (b < 0 -> gcd a b = - Z.gcd a b) /\
  (b = 0 -> gcd a b = a) /\
  Z.abs (gcd a b) = Z.gcd a b.
Proof.
  assert (Hpos : 0 < b -> gcd a b = Z.gcd a b).
  { intros Hb. rewrite gcd_loop_eq. destruct (Z.eqb_spec b 0); [lia|].
    pose proof (Z.mod_pos_bound a b Hb).
    rewrite gcd_correct by lia.
    rewrite Z.gcd_comm, Z.gcd_mod by lia. apply Z.gcd_comm. }
  assert (Hneg : b < 0 -> gcd a b = - Z.gcd a b).
  { intros Hb. rewrite gcd_loop_eq. destruct (Z.eqb_spec b 0); [lia|].
    pose proof (Z.mod_neg_bound a b Hb).
    rewrite gcd_negative by lia.
    rewrite Z.gcd_comm, Z.gcd_mod by lia. now rewrite Z.gcd_comm. }
  assert (Hzero : b = 0 -> gcd a b = a).
  { intros ->. rewrite gcd_loop_eq. reflexivity. }
  split; [exact Hpos|]. split; [exact Hneg|]. split; [exact Hzero|].
  pose proof (Z.gcd_nonneg a b).
  destruct (Z.lt_trichotomy b 0) as [Hb|[Hb|Hb]].
  - rewrite (Hneg Hb). lia.
  - rewrite (Hzero Hb). subst b. now rewrite Z.gcd_0_r.
  - rewrite (Hpos Hb). lia.
Qed.


Lemma mod_pow_nonpositive (base exponent modulus : Z) :
  exponent <= 0 -> modulus <> 0 -> modulus <> 1 ->
  ElGamalCrypto.mod_pow base exponent modulus = Returns 1.
Proof.
  intros He Hm0 Hm1. unfold ElGamalCrypto.mod_pow.
  destruct (Z.eqb_spec modulus 1) as [|_]; [contradiction|].
  rewrite mod_returns by assumption. cbn [obind].
  destruct exponent as [|e|e]; try lia; reflexivity.
Qed.

(** [mod_pow] of [gamel.py] computes the modular power for a positive
    exponent and a non-zero modulus. It returns 0 for the modulus 1, raises
    [ZeroDivisionError] for the modulus 0, and returns 1 for every other
    modulus when the exponent is zero or negative (Python's [pow] inverts
    the base for a negative exponent). *)
Theorem mod_pow_spec (base exponent modulus : Z) :
  (0 < exponent -> modulus <> 0 ->
   ElGamalCrypto.mod_pow base exponent modulus = Returns (base ^ exponent mod modulus)) /\
  (0 <= exponent -> 1 <= modulus ->
   ElGamalCrypto.mod_pow base exponent modulus = Py.pow base exponent modulus) /\
  (modulus = 1 -> ElGamalCrypto.mod_pow base exponent modulus = Returns 0) /\
  (modulus = 0 -> ElGamalCrypto.mod_pow base exponent modulus = Raises ZeroDivisionError) /\
  (exponent <= 0 -> modulus <> 0 -> modulus <> 1 ->
   ElGamalCrypto.mod_pow base exponent modulus = Returns 1).
Proof.
  split; [|split; [|split; [|split]]].
  - intros He Hm. unfold ElGamalCrypto.mod_pow.
    destruct (Z.eqb_spec modulus 1) as [->|_].
    + now rewrite Z.mod_1_r.
    + rewrite mod_returns by assumption. cbn [obind].
      destruct exponent as [|e|e]; try lia.
      rewrite mod_pow_loop_correct, Z.mul_1_l, Z.mod_pow_l by assumption. reflexivity.
  - intros He Hm. rewrite mod_pow_returns, pow_returns by lia. reflexivity.
  - intros ->. reflexivity.
  - intros ->. reflexivity.
  - apply mod_pow_nonpositive.
Qed.



(** ** Drawing primes *)

Lemma lor_one (v : Z) :
  Z.odd (Z.lor v 1) = true /\ Z.lor v 1 = if Z.odd v then v else v + 1.
Proof.
  pose proof (Z.add_lor_land v 1) as E.
  change 1 with (Z.ones 1) in E at 2. rewrite Z.land_ones in E by lia.
  change (2 ^ 1) with 2 in E. rewrite Zmod_odd in E.
  destruct (Z.odd v) eqn:Ev.
  - replace (Z.lor v 1) with v by lia. auto.
  - replace (Z.lor v 1) with (v + 1) by lia.
    rewrite Z.odd_add, Ev. auto.
Qed.

(** The rounds read draws from the front of the list and leave the rest. *)
Lemma witness_rounds_draws (k : nat) (n d : Z) (r : nat) (tape tape' : list Z) (b : bool) :
  RSAsignature.witness_rounds k n d r tape = Returns (b, tape') ->
  exists used : list Z, tape = used ++ tape'.
Proof.
  revert tape. induction k as [|k IH]; intros tape; cbn [RSAsignature.witness_rounds].
  - unfold ret. intros [= _ <-]. now exists [].
  - unfold bind at 1.
    destruct (Py.randint 2 (n - 2) tape) as [[a t1]| |] eqn:Ea; try discriminate.
    apply randint_returns in Ea as [_ ->].
    unfold bind at 1, lift.
    destruct (Py.pow a d n) as [x| |]; try discriminate. cbn [obind].
    destruct ((x =? 1) || (x =? n - 1)).
    { intros H. apply IH in H as [used ->]. now exists (a :: used). }
    unfold bind at 1, lift.
    destruct (RSAsignature.squarings (r - 1) x n) as [[|]| |];
      try discriminate; cbn [obind].
    + intros H. apply IH in H as [used ->]. now exists (a :: used).
    + unfold ret. intros [= _ <-]. now exists [a].
Qed.

Lemma is_prime_draws (n : Z) (k : nat) (tape tape' : list Z) (b : bool) :
  RSAsignature.is_prime n k tape = Returns (b, tape') ->
  exists used : list Z, tape = used ++ tape'.
Proof.
  unfold RSAsignature.is_prime.
  destruct ((n <=? 1) || (n =? 4)); [unfold ret; intros [= _ <-]; now exists []|].
  destruct (n <=? 3); [unfold ret; intros [= _ <-]; now exists []|].
  destruct (RSAsignature.halve_loop (n - 1) 0) as [d r].
  apply witness_rounds_draws.
Qed.

Lemma is_prime_gamel_draws (n : Z) (k : nat) (tape tape' : list Z) (b : bool) :
  ElGamalCrypto.is_prime n k tape = Returns (b, tape') ->
  exists used : list Z, tape = used ++ tape'.
Proof.
  unfold ElGamalCrypto.is_prime.
  destruct (n <? 2); [unfold ret; intros [= _ <-]; now exists []|].
  destruct ((n =? 2) || (n =? 3)); [unfold ret; intros [= _ <-]; now exists []|].
  destruct (n mod 2 =? 0); [unfold ret; intros [= _ <-]; now exists []|].
  destruct (RSAsignature.halve_loop (n - 1) 0) as [d r].
  apply witness_rounds_draws.
Qed.

Lemma generate_prime_bits_loop
  (fuel : nat) (bits : Z) (tape tape' : list Z) (p : Z) :
  RSAsignature.generate_prime_loop fuel bits tape = Returns (p, tape') ->
  (exists v : Z, In v tape /\ 0 <= v < 2 ^ bits /\ p = Z.lor v 1) /\
  (length tape' < length tape)%nat /\
  exists t1 t2, RSAsignature.is_prime p 5 t1 = Returns (true, t2).
Proof.
  revert tape. induction fuel as [|fuel IH]; intros tape; [discriminate|].
  cbn [RSAsignature.generate_prime_loop]. unfold bind at 1. unfold Py.getrandbits.
  destruct (bits <? 0); [discriminate|].
  destruct tape as [|v t]; [discriminate|].
  destruct ((0 <=? v) && (v <? 2 ^ bits)) eqn:Ev; [|discriminate].
  apply andb_true_iff in Ev as [Ev1 Ev2]. apply Z.leb_le in Ev1. apply Z.ltb_lt in Ev2.
  unfold bind at 1.
  destruct (RSAsignature.is_prime (Z.lor v 1) 5 t) as [[[|] t2]| |] eqn:Ep;
    try discriminate; destruct (is_prime_draws _ _ _ _ _ Ep) as [used ->].
  - unfold ret. intros [= <- <-]. split; [|split].
    + exists v. split; [now left | split; [lia | reflexivity]].
    + cbn [length]. rewrite length_app. lia.
    + exists (used ++ t2), t2. exact Ep.
  - intros H. apply IH in H as ((w & Hw & Hr) & Hl & Hp). split; [|split].
    + exists w. split; [right; apply in_or_app; now right | assumption].
    + cbn [length]. rewrite length_app. lia.
    + assumption.
Qed.

(** [generate_prime(bits)] of [RSAsignature.py] returns an odd number that
    [is_prime] accepted, at least 3 and below [2^bits], one of the draws
    with its last bit set; it has used at least one draw. The top bit is not
    set, so the number may be much shorter than [bits] bits. *)
Theorem generate_prime_bits (bits : Z) (tape tape' : list Z) (p : Z) :
  RSAsignature.generate_prime bits tape = Returns (p, tape') ->
  Z.odd p = true /\ 3 <= p < 2 ^ bits /\
  (exists v : Z, In v tape /\ 0 <= v < 2 ^ bits /\ p = Z.lor v 1) /\
  (length tape' < length tape)%nat /\
  exists t1 t2, RSAsignature.is_prime p 5 t1 = Returns (true, t2).
Proof.
  unfold RSAsignature.generate_prime. intros H.
  apply generate_prime_bits_loop in H as ((v & Hin & Hv & ->) & Hl & (t1 & t2 & Hp)).
  destruct (lor_one v) as [Ho E].
  assert (H3 : 3 <= Z.lor v 1).
  { destruct (is_prime_trivial_signature (Z.lor v 1) 5 t1) as [Hsmall _].
    destruct (Z.le_gt_cases (Z.lor v 1) 1) as [Hle|Hgt].
    - rewrite Hsmall in Hp by now left. discriminate.
    - destruct (Z.eq_dec (Z.lor v 1) 2) as [E2|]; [rewrite E2 in Ho; discriminate | lia]. }
  split; [exact Ho|]. split; [|split; [|split]].
  - split; [exact H3|].
    destruct (Z.odd v) eqn:Ev; [lia|].
    assert (Hb : 0 < bits).
    { destruct (Z.lt_trichotomy bits 0) as [Hb|[Hb|Hb]]; [| |assumption].
      - rewrite Z.pow_neg_r in Hv by assumption. lia.
      - subst bits. change (2 ^ 0) with 1 in Hv. lia. }
    assert (Z.odd (2 ^ bits) = false).
    { replace bits with (Z.succ (bits - 1)) by lia.
      rewrite Z.pow_succ_r by lia. now rewrite Z.odd_mul. }
    destruct (Z.eq_dec (v + 1) (2 ^ bits)) as [E2|]; [|lia].
    rewrite E, E2 in Ho. congruence.
  - exists v. auto.
  - exact Hl.
  - now exists t1, t2.
Qed.

(** Asked for 8 bits, [generate_prime] returns 3 when the draw is 2. *)
Lemma generate_prime_bits_witness :
  RSAsignature.generate_prime 8 [2] = Returns (3, []) /\
  Z.odd 3 = true /\ 3 <= 3 < 2 ^ 8 /\
  (exists v : Z, In v [2] /\ 0 <= v < 2 ^ 8 /\ 3 = Z.lor v 1) /\
  (length (@nil Z) < length [2])%nat /\
  exists t1 t2, RSAsignature.is_prime 3 5 t1 = Returns (true, t2).
Proof.
  split; [reflexivity|].
  apply (generate_prime_bits 8 [2] [] 3). reflexivity.
Defined.

(** ** The digest *)

Lemma be_value_bound (w : Z) (ds : list Z) (acc k : Z) :
  0 <= w -> 0 <= k -> Forall (fun d => 0 <= d < 2 ^ w) ds -> 0 <= acc < 2 ^ (w * k) ->
  0 <= fold_left (fun acc d : Z => acc * 2 ^ w + d) ds acc
    < 2 ^ (w * (k + Z.of_nat (length ds))).
Proof.
  intros Hw Hk H. revert acc k Hk.
  induction H as [|d ds Hd _ IH]; intros acc k Hk Hacc; cbn [fold_left length].
  - now rewrite Z.add_0_r.
  - replace (k + Z.of_nat (S (length ds))) with ((k + 1) + Z.of_nat (length ds)) by lia.
    apply IH; [lia|].
    replace (w * (k + 1)) with (w * k + w) by lia.
    rewrite Z.pow_add_r by nia.
    pose proof (Z.pow_pos_nonneg 2 w ltac:(lia) Hw).
    pose proof (Z.pow_pos_nonneg 2 (w * k) ltac:(lia) ltac:(nia)). nia.
Qed.

Lemma mask32_bound (x : Z) : 0 <= Hashlib.mask32 x < 2 ^ 32.
Proof. unfold Hashlib.mask32. apply Z.mod_pos_bound. reflexivity. Qed.

Lemma sha256_words_bound (msg : list Z) :
  Forall (fun d => 0 <= d < 2 ^ 32) (Hashlib.sha256_words msg) /\
  (length (Hashlib.sha256_words msg) <= 8)%nat.
Proof.
  unfold Hashlib.sha256_words.
  generalize (Hashlib.chunks (length (Hashlib.pad msg) / 64) 64 (Hashlib.pad msg)).
  assert (H0 : Forall (fun d => 0 <= d < 2 ^ 32) Hashlib.H0 /\ (length Hashlib.H0 <= 8)%nat).
  { split.
    - unfold Hashlib.H0. apply Forall_map, Forall_forall. intros; apply mask32_bound.
    - vm_compute. lia. }
  revert H0. generalize Hashlib.H0 as st. intros st Hst blocks. revert st Hst.
  induction blocks as [|b bs IH]; intros st Hst; cbn [fold_left].
  - assumption.
  - apply IH. unfold Hashlib.compress. split.
    + apply Forall_map, Forall_forall. intros; apply mask32_bound.
    + rewrite length_map, length_combine. lia.
Qed.

(** [hash_message] of [RSAsignature.py] and [Elgamelsignature.py] returns a
    number of at most 256 bits. So [sign] of [RSAsignature.py] never raises
    with a modulus of at least [2^256] and a non-negative exponent, and its
    signature is then below the modulus; with a modulus that the digest
    reaches it raises [ValueError]. *)
Theorem hash_message_range (message : string) (d n : Z) :
  0 <= RSAsignature.hash_message message < 2 ^ 256 /\
  ElGamalSignature.hash_message message = RSAsignature.hash_message message /\
  (2 ^ 256 <= n -> 0 <= d ->
   exists s : Z,
     RSAsignature.sign message (d, n) = Returns s /\ 0 <= s < n /\
     s = RSAsignature.hash_message message ^ d mod n) /\
  (n <= RSAsignature.hash_message message ->
   RSAsignature.sign message (d, n)
   = Raises (ValueError "Le hash du message est trop grand pour cette cle RSA")).
Proof.
  assert (R : 0 <= RSAsignature.hash_message message < 2 ^ 256).
  { unfold RSAsignature.hash_message, Hashlib.sha256_int, Hashlib.be_value.
    destruct (sha256_words_bound (Hashlib.bytes_of_string message)) as [F L].
    pose proof (be_value_bound 32 _ 0 0 ltac:(lia) ltac:(lia) F ltac:(cbn; lia)) as B.
    split; [lia|].
    eapply Z.lt_le_trans; [apply B|].
    apply Z.pow_le_mono_r; lia. }
  split; [exact R|]. split; [reflexivity|]. split.
  - intros Hn Hd. unfold RSAsignature.sign.
    destruct (Z.geb_spec (RSAsignature.hash_message message) n) as [|_]; [lia|].
    rewrite pow_returns by lia.
    eexists. split; [reflexivity|]. split; [|reflexivity].
    apply Z.mod_pos_bound. lia.
  - intros Hn. unfold RSAsignature.sign.
    destruct (Z.geb_spec (RSAsignature.hash_message message) n) as [_|]; [reflexivity | lia].
Qed.

(** ** Key pairs *)

Lemma find_generator_simple_range (p g : Z) :
  ElGamalSignature.find_generator p = Returns g -> 3 <= p -> 2 <= g < p.
Proof.
  unfold ElGamalSignature.find_generator. intros H Hp.
  destruct (Z.eqb_spec p 2); [lia|].
  destruct (first_such _ (Py.range 2 p)) as [[v|]| |] eqn:E;
    cbn [obind] in H; try discriminate; injection H as <-.
  - apply first_such_found in E as [Hin _]. now apply in_range in Hin.
  - lia.
Qed.

(** The key pairs that [generate_keypair] of [Elgamelsignature.py] returns
    keep [y = g^x mod p], with an odd [p >= 5] in
    [min_prime, max_prime + 1], [2 <= g < p] and [2 <= x <= p - 2]; the check
    of [display_key_components] holds for them. No primality of [p] is
    assumed. *)
Theorem elgamal_generate_keypair_invariant
  (min_prime max_prime : Z) (tape tape' : list Z) (keys : ElGamalSignature.keys) :
  ElGamalSignature.generate_keypair min_prime max_prime tape = Returns (keys, tape') ->
  let '(p, g, y, x) := (ElGamalSignature.p keys, ElGamalSignature.g keys,
                        ElGamalSignature.y keys, ElGamalSignature.x keys) in
  Z.odd p = true /\ 5 <= p /\ min_prime <= p <= max_prime + 1 /\
  2 <= g < p /\ 2 <= x <= p - 2 /\ y = g ^ x mod p /\ 0 <= y < p /\
  ElGamalSignatureKeys.display_key_components keys = Returns true.
Proof.
  unfold ElGamalSignature.generate_keypair. unfold bind at 1.
  destruct (ElGamalSignature.generate_prime min_prime max_prime tape)
    as [[p t1]| |] eqn:Ep; try discriminate.
  apply generate_prime_loop_result in Ep as (Ho & Hr & _).
  unfold bind at 1, lift.
  destruct (ElGamalSignature.find_generator p) as [g| |] eqn:Eg; try discriminate.
  cbn [obind]. unfold bind at 1.
  destruct (Py.randint 2 (p - 2) t1) as [[x t2]| |] eqn:Ex; try discriminate.
  apply randint_returns in Ex as [Hx _].
  unfold bind at 1, lift. rewrite pow_returns by lia. cbn [obind]. unfold ret.
  intros [= <- <-].
  cbn [ElGamalSignature.p ElGamalSignature.g ElGamalSignature.y ElGamalSignature.x].
  assert (H5 : 5 <= p).
  { destruct (Z.eq_dec p 4) as [->|]; [discriminate | lia]. }
  pose proof (find_generator_simple_range p g Eg ltac:(lia)).
  pose proof (Z.mod_pos_bound (g ^ x) p ltac:(lia)).
  repeat (split; [first [assumption | reflexivity | lia]|]).
  unfold ElGamalSignatureKeys.display_key_components.
  cbn [ElGamalSignature.p ElGamalSignature.g ElGamalSignature.y ElGamalSignature.x].
  rewrite pow_returns by lia. cbn [obind]. now rewrite Z.eqb_refl.
Qed.

Lemma elgamal_generate_keypair_invariant_witness :
  let keys := {| ElGamalSignature.p := 1009; ElGamalSignature.g := 11;
                 ElGamalSignature.y := 510; ElGamalSignature.x := 123 |} in
  ElGamalSignature.generate_keypair 1000 10000 [1009; 2; 3; 5; 7; 11; 123]
  = Returns (keys, []) /\
  Z.odd 1009 = true /\ 5 <= 1009 /\ 1000 <= 1009 <= 10000 + 1 /\
  2 <= 11 < 1009 /\ 2 <= 123 <= 1009 - 2 /\ 510 = 11 ^ 123 mod 1009 /\
  0 <= 510 < 1009 /\
  ElGamalSignatureKeys.display_key_components keys = Returns true.
Proof.
  intros keys. split; [vm_compute; reflexivity|].
  apply (elgamal_generate_keypair_invariant
           1000 10000 [1009; 2; 3; 5; 7; 11; 123] [] keys).
  vm_compute. reflexivity.
Defined.

(** The same for [generate_elgamal_keys] of [gamel.py], where [p >= 3] and
    [1 <= x <= p - 2]. *)
Theorem generate_elgamal_keys_invariant
  (min_prime max_prime : Z) (tape tape' : list Z) (keys : ElGamalCrypto.keys) :
  ElGamalCrypto.generate_elgamal_keys min_prime max_prime tape = Returns (keys, tape') ->
  let '(p, g, y, x) := (ElGamalCrypto.p keys, ElGamalCrypto.g keys,
                        ElGamalCrypto.y keys, ElGamalCrypto.x keys) in
  Z.odd p = true /\ 3 <= p /\ min_prime <= p <= max_prime + 1 /\
  2 <= g < p /\ 1 <= x <= p - 2 /\ y = g ^ x mod p /\ 0 <= y < p /\
  ElGamalCryptoKeys.display_key_components keys = Returns true.
Proof.
  intros H. pose proof (elgamal_crypto_keys_result _ _ _ _ _ H) as R.
  revert H R. unfold ElGamalCrypto.generate_elgamal_keys. unfold bind at 1.
  destruct (ElGamalCrypto.generate_prime min_prime max_prime tape)
    as [[p t1]| |] eqn:Ep; try discriminate.
  apply generate_prime_loop_result_gamel in Ep as (Ho & Hr & _).
  unfold bind at 1, lift.
  destruct (ElGamalCrypto.find_generator p) as [g| |] eqn:Eg; try discriminate.
  cbn [obind]. unfold bind at 1.
  destruct (Py.randint 1 (p - 2) t1) as [[x t2]| |] eqn:Ex; try discriminate.
  unfold bind at 1, lift.
  destruct (ElGamalCrypto.mod_pow g x p) as [y| |] eqn:Ey; try discriminate.
  cbn [obind]. unfold ret. intros [= <- <-].
  cbn [ElGamalCrypto.p ElGamalCrypto.g ElGamalCrypto.y ElGamalCrypto.x].
  intros (Hp & Hg & Hx & Hy).
  pose proof (Z.mod_pos_bound (g ^ x) p ltac:(lia)).
  repeat (split; [first [assumption | lia]|]).
  unfold ElGamalCryptoKeys.display_key_components.
  cbn [ElGamalCrypto.p ElGamalCrypto.g ElGamalCrypto.y ElGamalCrypto.x].
  rewrite Ey. cbn [obind]. now rewrite Z.eqb_refl.
Qed.

Lemma generate_elgamal_keys_invariant_witness :
  let keys := {| ElGamalCrypto.p := 1009; ElGamalCrypto.g := 11;
                 ElGamalCrypto.y := 510; ElGamalCrypto.x := 123 |} in
  ElGamalCrypto.generate_elgamal_keys 1000 2000 [1009; 2; 3; 5; 7; 11; 123]
  = Returns (keys, []) /\
  Z.odd 1009 = true /\ 3 <= 1009 /\ 1000 <= 1009 <= 2000 + 1 /\
  2 <= 11 < 1009 /\ 1 <= 123 <= 1009 - 2 /\ 510 = 11 ^ 123 mod 1009 /\
  0 <= 510 < 1009 /\
  ElGamalCryptoKeys.display_key_components keys = Returns true.
Proof.
  intros keys. split; [vm_compute; reflexivity|].
  apply (generate_elgamal_keys_invariant
           1000 2000 [1009; 2; 3; 5; 7; 11; 123] [] keys).
  vm_compute. reflexivity.
Defined.

(** ** Keys from components *)

Lemma bind_eq {A B : Type} (m : rand A) (f : A -> rand B) (tape : list Z) :
  bind m f tape
  = match m tape with
    | Returns (a, tape') => f a tape'
    | Raises e => Raises e
    | Starved => Starved
    end.
Proof. reflexivity. Qed.

(** [create_keys_from_components] of [Elgamelsignature.py] never raises, and
    the keys it returns are consistent: [p] and [g] are the ones given, [p]
    was accepted by [is_prime], [2 <= g < p] and [pow(g, x, p) = y], which is
    the check of [display_key_components]. A given [x] is kept (and lies in
    [1, p - 1] when [y] is not given), a missing one is drawn from
    [1, p - 2]; a [y] given without [x] has no effect once it is in
    [1, p - 1]. *)
Theorem elgamal_create_keys_consistent
  (p g : Z) (x y : option Z) (tape tape' : list Z) (keys : ElGamalSignature.keys) :
  ElGamalSignatureKeys.create_keys_from_components p g x y tape
  = Returns (Some (keys, tape')) ->
  ElGamalSignature.p keys = p /\ ElGamalSignature.g keys = g /\
  (exists t1 t2, ElGamalSignature.is_prime p 5 t1 = Returns (true, t2)) /\
  2 <= g < p /\
  Py.pow g (ElGamalSignature.x keys) p = Returns (ElGamalSignature.y keys) /\
  ElGamalSignatureKeys.display_key_components keys = Returns true /\
  match x, y with
  | Some x0, Some y0 => ElGamalSignature.x keys = x0 /\ ElGamalSignature.y keys = y0
  | Some x0, None => ElGamalSignature.x keys = x0 /\ 1 <= x0 <= p - 1
  | None, _ => 1 <= ElGamalSignature.x keys <= p - 2
  end /\
  (forall (y0 : Z) (draws : list Z),
     1 <= y0 <= p - 1 ->
     ElGamalSignatureKeys.create_keys_from_components p g None (Some y0) draws
     = ElGamalSignatureKeys.create_keys_from_components p g None None draws) /\
  (forall (e : exn) (x1 y1 : option Z) (draws : list Z),
     ElGamalSignatureKeys.create_keys_from_components p g x1 y1 draws <> Raises e).
Proof.
  assert (Hy : forall (y0 : Z) (draws : list Z),
     1 <= y0 <= p - 1 ->
     ElGamalSignatureKeys.create_keys_from_components p g None (Some y0) draws
     = ElGamalSignatureKeys.create_keys_from_components p g None None draws).
  { intros y0 draws Hy0.
    unfold ElGamalSignatureKeys.create_keys_from_components, caught.
    unfold ElGamalSignatureKeys.create_keys. rewrite !bind_eq.
    destruct (ElGamalSignature.is_prime p 5 draws) as [[[|] t]| |]; try reflexivity.
    cbn [negb]. destruct ((g <=? 1) || (g >=? p)); [reflexivity|].
    destruct (Z.leb_spec y0 0); [lia|]. rewrite Z.geb_leb.
    destruct (Z.leb_spec p y0); [lia|]. reflexivity. }
  assert (Hraise : forall (e : exn) (x1 y1 : option Z) (draws : list Z),
     ElGamalSignatureKeys.create_keys_from_components p g x1 y1 draws <> Raises e).
  { intros e x1 y1 draws.
    unfold ElGamalSignatureKeys.create_keys_from_components, caught.
    destruct (ElGamalSignatureKeys.create_keys p g x1 y1 draws); discriminate. }
  unfold ElGamalSignatureKeys.create_keys_from_components at 1, caught.
  unfold ElGamalSignatureKeys.create_keys. rewrite bind_eq.
  destruct (ElGamalSignature.is_prime p 5 tape) as [[[|] t1]| |] eqn:Ep;
    try discriminate; cbn [negb].
  destruct ((g <=? 1) || (g >=? p)) eqn:Eg; [discriminate|].
  apply orb_false_iff in Eg as [Eg1 Eg2].
  apply Z.leb_gt in Eg1. rewrite Z.geb_leb in Eg2. apply Z.leb_gt in Eg2.
  assert (Final : forall k : ElGamalSignature.keys,
    ElGamalSignature.p k = p -> ElGamalSignature.g k = g ->
    Py.pow g (ElGamalSignature.x k) p = Returns (ElGamalSignature.y k) ->
    ElGamalSignatureKeys.display_key_components k = Returns true).
  { intros k Hkp Hkg Hk. unfold ElGamalSignatureKeys.display_key_components.
    rewrite Hkp, Hkg, Hk. cbn [obind]. now rewrite Z.eqb_refl. }
  assert (Drawn : forall t k t',
    bind (Py.randint 1 (p - 2))
      (fun x1 => bind (lift (Py.pow g x1 p))
         (fun y1 => ret {| ElGamalSignature.p := p; ElGamalSignature.g := g;
                           ElGamalSignature.y := y1; ElGamalSignature.x := x1 |})) t
    = Returns (k, t') ->
    ElGamalSignature.p k = p /\ ElGamalSignature.g k = g /\
    Py.pow g (ElGamalSignature.x k) p = Returns (ElGamalSignature.y k) /\
    1 <= ElGamalSignature.x k <= p - 2).
  { intros t k t'. rewrite bind_eq.
    destruct (Py.randint 1 (p - 2) t) as [[x1 t2]| |] eqn:Ex; try discriminate.
    apply randint_returns in Ex as [Hx _].
    rewrite bind_eq. unfold lift.
    destruct (Py.pow g x1 p) as [y1| |] eqn:Ey; try discriminate.
    cbn [obind]. unfold ret. intros [= <- <-]. cbn. auto. }
  intros H.
  destruct x as [x0|], y as [y0|].
  - rewrite bind_eq in H. unfold lift in H.
    destruct (Py.pow g x0 p) as [cy| |] eqn:Ey; try discriminate. cbn [obind] in H.
    destruct (Z.eqb_spec cy y0) as [->|]; [|discriminate]. cbn [negb] in H.
    unfold ret in H. injection H as <- <-. cbn.
    repeat (split; [first [reflexivity | assumption | lia | now exists tape, t1]|]).
    split; [apply Final; cbn; auto|]. auto.
  - destruct ((x0 <=? 0) || (x0 >=? p)) eqn:Ex; [discriminate|].
    apply orb_false_iff in Ex as [Ex1 Ex2].
    apply Z.leb_gt in Ex1. rewrite Z.geb_leb in Ex2. apply Z.leb_gt in Ex2.
    rewrite bind_eq in H. unfold lift in H.
    destruct (Py.pow g x0 p) as [cy| |] eqn:Ey; try discriminate. cbn [obind] in H.
    unfold ret in H. injection H as <- <-. cbn.
    repeat (split; [first [reflexivity | assumption | lia | now exists tape, t1]|]).
    split; [apply Final; cbn; auto|]. split; [split; [reflexivity | lia] | auto].
  - destruct ((y0 <=? 0) || (y0 >=? p)); [discriminate|].
    match type of H with
    | match ?m with _ => _ end = _ => destruct m as [[k t]| |] eqn:Ek; try discriminate
    end.
    injection H as <- <-. apply Drawn in Ek as (Hkp & Hkg & Hk & Hx).
    repeat (split; [first [assumption | lia | now exists tape, t1]|]).
    split; [now apply Final|]. auto.
  - match type of H with
    | match ?m with _ => _ end = _ => destruct m as [[k t]| |] eqn:Ek; try discriminate
    end.
    injection H as <- <-. apply Drawn in Ek as (Hkp & Hkg & Hk & Hx).
    repeat (split; [first [assumption | lia | now exists tape, t1]|]).
    split; [now apply Final|]. auto.
Qed.

Lemma elgamal_create_keys_consistent_witness :
  let keys := {| ElGamalSignature.p := 11; ElGamalSignature.g := 2;
                 ElGamalSignature.y := 8; ElGamalSignature.x := 3 |} in
  ElGamalSignatureKeys.create_keys_from_components 11 2 (Some 3) None [2; 3; 4; 5; 6]
  = Returns (Some (keys, [])) /\
  Py.pow 2 3 11 = Returns 8 /\
  ElGamalSignatureKeys.display_key_components keys = Returns true.
Proof.
  intros keys. split; [vm_compute; reflexivity|].
  destruct (elgamal_create_keys_consistent 11 2 (Some 3) None [2; 3; 4; 5; 6] [] keys)
    as (_ & _ & _ & _ & H1 & H2 & _); [vm_compute; reflexivity|].
  split; assumption.
Defined.

(** [create_keys_from_components] of [gamel.py]: the same, with [mod_pow]
    in the place of [pow]. So [y = g^x mod p] when [x] is not negative; a
    negative [x], which can only be given together with [y], is accepted
    with [y = 1]. *)
Theorem gamel_create_keys_consistent
  (p g : Z) (x y : option Z) (tape tape' : list Z) (keys : ElGamalCrypto.keys) :
  ElGamalCryptoKeys.create_keys_from_components p g x y tape
  = Returns (Some (keys, tape')) ->
  ElGamalCrypto.p keys = p /\ ElGamalCrypto.g keys = g /\
  (exists t1 t2, ElGamalCrypto.is_prime p 5 t1 = Returns (true, t2)) /\
  2 <= g < p /\
  ElGamalCrypto.mod_pow g (ElGamalCrypto.x keys) p = Returns (ElGamalCrypto.y keys) /\
  ElGamalCryptoKeys.display_key_components keys = Returns true /\
  (0 <= ElGamalCrypto.x keys -> ElGamalCrypto.y keys = g ^ ElGamalCrypto.x keys mod p) /\
  (ElGamalCrypto.x keys < 0 -> ElGamalCrypto.y keys = 1) /\
  match x, y with
  | Some x0, Some y0 => ElGamalCrypto.x keys = x0 /\ ElGamalCrypto.y keys = y0
  | Some x0, None => ElGamalCrypto.x keys = x0 /\ 1 <= x0 <= p - 1
  | None, _ => 1 <= ElGamalCrypto.x keys <= p - 2
  end /\
  (forall (y0 : Z) (draws : list Z),
     1 <= y0 <= p - 1 ->
     ElGamalCryptoKeys.create_keys_from_components p g None (Some y0) draws
     = ElGamalCryptoKeys.create_keys_from_components p g None None draws) /\
  (forall (e : exn) (x1 y1 : option Z) (draws : list Z),
     ElGamalCryptoKeys.create_keys_from_components p g x1 y1 draws <> Raises e).
Proof.
  assert (Hy : forall (y0 : Z) (draws : list Z),
     1 <= y0 <= p - 1 ->
     ElGamalCryptoKeys.create_keys_from_components p g None (Some y0) draws
     = ElGamalCryptoKeys.create_keys_from_components p g None None draws).
  { intros y0 draws Hy0.
    unfold ElGamalCryptoKeys.create_keys_from_components, caught.
    unfold ElGamalCryptoKeys.create_keys. rewrite !bind_eq.
    destruct (ElGamalCrypto.is_prime p 5 draws) as [[[|] t]| |]; try reflexivity.
    cbn [negb]. destruct ((g <=? 1) || (g >=? p)); [reflexivity|].
    destruct (Z.leb_spec y0 0); [lia|]. rewrite Z.geb_leb.
    destruct (Z.leb_spec p y0); [lia|]. reflexivity. }
  assert (Hraise : forall (e : exn) (x1 y1 : option Z) (draws : list Z),
     ElGamalCryptoKeys.create_keys_from_components p g x1 y1 draws <> Raises e).
  { intros e x1 y1 draws.
    unfold ElGamalCryptoKeys.create_keys_from_components, caught.
    destruct (ElGamalCryptoKeys.create_keys p g x1 y1 draws); discriminate. }
  unfold ElGamalCryptoKeys.create_keys_from_components at 1, caught.
  unfold ElGamalCryptoKeys.create_keys. rewrite bind_eq.
  destruct (ElGamalCrypto.is_prime p 5 tape) as [[[|] t1]| |] eqn:Ep;
    try discriminate; cbn [negb].
  destruct ((g <=? 1) || (g >=? p)) eqn:Eg; [discriminate|].
  apply orb_false_iff in Eg as [Eg1 Eg2].
  apply Z.leb_gt in Eg1. rewrite Z.geb_leb in Eg2. apply Z.leb_gt in Eg2.
  assert (Final : forall k : ElGamalCrypto.keys,
    ElGamalCrypto.p k = p -> ElGamalCrypto.g k = g ->
    ElGamalCrypto.mod_pow g (ElGamalCrypto.x k) p = Returns (ElGamalCrypto.y k) ->
    ElGamalCryptoKeys.display_key_components k = Returns true).
  { intros k Hkp Hkg Hk. unfold ElGamalCryptoKeys.display_key_components.
    rewrite Hkp, Hkg, Hk. cbn [obind]. now rewrite Z.eqb_refl. }
  assert (Drawn : forall t k t',
    bind (Py.randint 1 (p - 2))
      (fun x1 => bind (lift (ElGamalCrypto.mod_pow g x1 p))
         (fun y1 => ret {| ElGamalCrypto.p := p; ElGamalCrypto.g := g;
                           ElGamalCrypto.y := y1; ElGamalCrypto.x := x1 |})) t
    = Returns (k, t') ->
    ElGamalCrypto.p k = p /\ ElGamalCrypto.g k = g /\
    ElGamalCrypto.mod_pow g (ElGamalCrypto.x k) p = Returns (ElGamalCrypto.y k) /\
    1 <= ElGamalCrypto.x k <= p - 2).
  { intros t k t'. rewrite bind_eq.
    destruct (Py.randint 1 (p - 2) t) as [[x1 t2]| |] eqn:Ex; try discriminate.
    apply randint_returns in Ex as [Hx _].
    rewrite bind_eq. unfold lift.
    destruct (ElGamalCrypto.mod_pow g x1 p) as [y1| |] eqn:Ey; try discriminate.
    cbn [obind]. unfold ret. intros [= <- <-]. cbn. auto. }
  assert (Pow : forall k : ElGamalCrypto.keys,
    ElGamalCrypto.mod_pow g (ElGamalCrypto.x k) p = Returns (ElGamalCrypto.y k) ->
    (0 <= ElGamalCrypto.x k -> ElGamalCrypto.y k = g ^ ElGamalCrypto.x k mod p) /\
    (ElGamalCrypto.x k < 0 -> ElGamalCrypto.y k = 1)).
  { intros k Hk. split; intros Hx.
    - rewrite mod_pow_returns in Hk by lia. now injection Hk.
    - rewrite mod_pow_nonpositive in Hk by lia. now injection Hk. }
  intros H.
  destruct x as [x0|], y as [y0|].
  - rewrite bind_eq in H. unfold lift in H.
    destruct (ElGamalCrypto.mod_pow g x0 p) as [cy| |] eqn:Ey; try discriminate. cbn [obind] in H.
    destruct (Z.eqb_spec cy y0) as [->|]; [|discriminate]. cbn [negb] in H.
    unfold ret in H. injection H as <- <-. cbn.
    repeat (split; [first [reflexivity | assumption | lia | now exists tape, t1]|]).
    split; [apply Final; cbn; auto|].
    destruct (Pow {| ElGamalCrypto.p := p; ElGamalCrypto.g := g;
                     ElGamalCrypto.y := y0; ElGamalCrypto.x := x0 |} Ey) as [P1 P2].
    split; [exact P1|]. split; [exact P2|]. auto.
  - destruct ((x0 <=? 0) || (x0 >=? p)) eqn:Ex; [discriminate|].
    apply orb_false_iff in Ex as [Ex1 Ex2].
    apply Z.leb_gt in Ex1. rewrite Z.geb_leb in Ex2. apply Z.leb_gt in Ex2.
    rewrite bind_eq in H. unfold lift in H.
    destruct (ElGamalCrypto.mod_pow g x0 p) as [cy| |] eqn:Ey; try discriminate. cbn [obind] in H.
    unfold ret in H. injection H as <- <-. cbn.
    repeat (split; [first [reflexivity | assumption | lia | now exists tape, t1]|]).
    split; [apply Final; cbn; auto|].
    destruct (Pow {| ElGamalCrypto.p := p; ElGamalCrypto.g := g;
                     ElGamalCrypto.y := cy; ElGamalCrypto.x := x0 |} Ey) as [P1 P2].
    split; [exact P1|]. split; [exact P2|]. split; [split; [reflexivity | lia] | auto].
  - destruct ((y0 <=? 0) || (y0 >=? p)); [discriminate|].
    match type of H with
    | match ?m with _ => _ end = _ => destruct m as [[k t]| |] eqn:Ek; try discriminate
    end.
    injection H as <- <-. apply Drawn in Ek as (Hkp & Hkg & Hk & Hx).
    repeat (split; [first [assumption | lia | now exists tape, t1]|]).
    split; [now apply Final|]. split; [now apply Pow|]. split; [now apply Pow|]. auto.
  - match type of H with
    | match ?m with _ => _ end = _ => destruct m as [[k t]| |] eqn:Ek; try discriminate
    end.
    injection H as <- <-. apply Drawn in Ek as (Hkp & Hkg & Hk & Hx).
    repeat (split; [first [assumption | lia | now exists tape, t1]|]).
    split; [now apply Final|]. split; [now apply Pow|]. split; [now apply Pow|]. auto.
Qed.

(** The pair [x = -3], [y = 1] passes for [p = 11], [g = 2], although
    [2^(-3) = 7] modulo 11. *)
Lemma gamel_create_keys_consistent_witness :
  let keys := {| ElGamalCrypto.p := 11; ElGamalCrypto.g := 2;
                 ElGamalCrypto.y := 1; ElGamalCrypto.x := -3 |} in
  ElGamalCryptoKeys.create_keys_from_components 11 2 (Some (-3)) (Some 1) [2; 3; 4; 5; 6]
  = Returns (Some (keys, [])) /\
  ElGamalCrypto.mod_pow 2 (-3) 11 = Returns 1 /\
  ElGamalCryptoKeys.display_key_components keys = Returns true /\
  Py.pow 2 (-3) 11 = Returns 7.
Proof.
  intros keys. split; [vm_compute; reflexivity|].
  destruct (gamel_create_keys_consistent 11 2 (Some (-3)) (Some 1) [2; 3; 4; 5; 6] [] keys)
    as (_ & _ & _ & _ & H1 & H2 & _); [vm_compute; reflexivity|].
  split; [assumption|]. split; [assumption|]. vm_compute. reflexivity.
Defined.

(** ** The key test of [display_key_components] *)

Lemma prime_3 : Z.prime 3.
Proof. apply isprime_correct. vm_compute. reflexivity. Qed.

Lemma prime_5 : Z.prime 5.
Proof. apply isprime_correct. vm_compute. reflexivity. Qed.

(** For a key pair that [generate_keypair] of [RSAsignature.py] made from
    two distinct primes, the test [42 -> e -> d -> 42] printed by
    [display_key_components] succeeds exactly when the modulus is above 42;
    it fails for the sound key pairs that have a smaller one. *)
Theorem rsa_display_test
  (bits : Z) (tape t1 tape' : list Z) (p q : Z) (keys : RSAsignature.keypair) :
  RSAsignature.draw_primes bits tape = Returns ((p, q), t1) ->
  RSAsignature.generate_keypair bits tape = Returns (keys, tape') ->
  Z.prime p -> Z.prime q -> p <> q ->
  RSAsignatureKeys.display_key_components keys = Returns (42 <? p * q).
Proof.
  intros Hdraw Hgen Hp Hq Hne.
  pose proof (Z.prime_ge_2 p Hp). pose proof (Z.prime_ge_2 q Hq).
  destruct (generate_keypair_result bits tape t1 tape' p q keys Hdraw Hgen)
    as (e & d & Epub & Epriv & He & Hd & Hed); try lia; [nia|].
  unfold RSAsignatureKeys.display_key_components. rewrite Epub, Epriv.
  rewrite pow_returns by nia. cbn [obind]. rewrite pow_returns by nia. cbn [obind].
  f_equal. destruct (Z.ltb_spec 42 (p * q)) as [Hn|Hn].
  - destruct (rsa_round_trip p q e d 42) as [E _]; try assumption; [lia|].
    rewrite E. reflexivity.
  - apply Z.eqb_neq.
    pose proof (Z.mod_pos_bound ((42 ^ e mod (p * q)) ^ d) (p * q) ltac:(nia)).
    lia.
Qed.

(** The primes 3 and 5 give a sound key pair that fails the test. *)
Lemma rsa_display_test_witness :
  let keys := {| RSAsignature.public := (65537, 15); RSAsignature.private := (1, 15) |} in
  RSAsignature.generate_keypair 8 [3; 5; 2; 2; 2; 2; 2] = Returns (keys, []) /\
  RSAsignatureKeys.display_key_components keys = Returns false.
Proof.
  intros keys. split; [vm_compute; reflexivity|].
  apply (rsa_display_test 8 [3; 5; 2; 2; 2; 2; 2] [] [] 3 5 keys).
  - vm_compute. reflexivity.
  - vm_compute. reflexivity.
  - exact prime_3.
  - exact prime_5.
  - discriminate.
Defined.

(** ** Key files *)



(** ** Signatures as text *)

Lemma be_bytes_range (n : nat) (x : Z) :
  Forall (fun b => 0 <= b < 256) (Hashlib.be_bytes n x).
Proof.
  revert x. induction n as [|n IH]; intros x; cbn [Hashlib.be_bytes].
  - constructor.
  - apply Forall_app. split; [apply IH|].
    constructor; [apply Z.mod_pos_bound; lia | constructor].
Qed.

Lemma be_value_bytes (n : nat) (x : Z) :
  0 <= x < 2 ^ (8 * Z.of_nat n) -> Hashlib.be_value 8 (Hashlib.be_bytes n x) = x.
Proof.
  unfold Hashlib.be_value. revert x.
  induction n as [|n IH]; intros x Hx; cbn [Hashlib.be_bytes].
  - change (2 ^ (8 * Z.of_nat 0)) with 1 in Hx. cbn. lia.
  - rewrite fold_left_app. cbn [fold_left]. rewrite IH.
    + change (2 ^ 8) with 256. pose proof (Z.div_mod x 256 ltac:(lia)). lia.
    + split; [apply Z.div_pos; lia|].
      apply Z.div_lt_upper_bound; [lia|].
      replace (8 * Z.of_nat (S n)) with (8 + 8 * Z.of_nat n) in Hx by lia.
      rewrite Z.pow_add_r in Hx by lia. change (2 ^ 8) with 256 in Hx. lia.
Qed.

Lemma bit_length_bound (x : Z) :
  0 <= x ->
  0 <= (RSAsignatureKeys.bit_length x + 7) / 8 /\
  x < 2 ^ (8 * ((RSAsignatureKeys.bit_length x + 7) / 8)).
Proof.
  intros Hx. unfold RSAsignatureKeys.bit_length.
  destruct (Z.eqb_spec x 0) as [->|Hne].
  - split; [reflexivity | reflexivity].
  - rewrite Z.abs_eq by lia.
    pose proof (Z.log2_nonneg x) as Hl.
    pose proof (Z.log2_spec x ltac:(lia)) as [_ Hu].
    set (b := Z.log2 x + 1) in *.
    assert (Hb : 0 <= (b + 7) / 8) by (apply Z.div_pos; lia).
    split; [exact Hb|].
    eapply Z.lt_le_trans; [replace b with (Z.succ (Z.log2 x)) by lia; exact Hu|].
    apply Z.pow_le_mono_r; [lia|].
    pose proof (Z.div_mod (b + 7) 8 ltac:(lia)).
    pose proof (Z.mod_pos_bound (b + 7) 8 ltac:(lia)). lia.
Qed.

(** [deserialize_signature(serialize_signature(s))] is [s] for every
    signature [s >= 0], zero included; [serialize_signature] fails on a
    negative number, with the [OverflowError] of [to_bytes]. *)
Theorem serialize_signature_round_trip (signature : Z) :
  (0 <= signature ->
   exists text : string,
     RSAsignatureKeys.serialize_signature signature = Some text /\
     RSAsignatureKeys.deserialize_signature text = Returns signature) /\
  (signature < 0 -> RSAsignatureKeys.serialize_signature signature = None).
Proof.
  unfold RSAsignatureKeys.serialize_signature, RSAsignatureKeys.to_bytes. split.
  - intros Hs. destruct (bit_length_bound signature Hs) as [Hl Hb].
    destruct (Z.ltb_spec signature 0) as [|_]; [lia|].
    destruct (Z.leb_spec (2 ^ (8 * ((RSAsignatureKeys.bit_length signature + 7) / 8)))
                signature) as [|_]; [lia|].
    cbn [orb]. eexists. split; [reflexivity|].
    unfold RSAsignatureKeys.deserialize_signature.
    rewrite list_ascii_of_string_of_list_ascii.
    rewrite b64_round_trip_list by apply be_bytes_range.
    unfold RSAsignatureKeys.from_bytes. rewrite be_value_bytes; [reflexivity|].
    rewrite Z2Nat.id by assumption. lia.
  - intros Hs. destruct (Z.ltb_spec signature 0) as [_|]; [reflexivity | lia].
Qed.

(** ** Signing and verifying *)





(** [verify] of [RSAsignature.py] does not look at the size of the
    signature: adding a multiple of the modulus to a signature does not
    change the answer. *)
Theorem rsa_verify_modulo (message : string) (signature e n k : Z) :
  0 <= e -> n <> 0 ->
  RSAsignature.verify message (signature + k * n) (e, n)
  = RSAsignature.verify message signature (e, n).
Proof.
  intros He Hn. unfold RSAsignature.verify. rewrite !pow_returns by assumption.
  cbn [obind]. f_equal. f_equal.
  rewrite <- (Z.mod_pow_l (signature + k * n)), Z.mod_add, Z.mod_pow_l by assumption.
  reflexivity.
Qed.

Lemma rsa_verify_modulo_witness :
  RSAsignature.verify "hello" (2 + 1 * 15) (3, 15)
  = RSAsignature.verify "hello" 2 (3, 15).
Proof.
  apply (rsa_verify_modulo "hello" 2 3 15 1); [lia | discriminate].
Defined.

(** ** Encrypting character by character *)

(** [encrypt_elgamal] of [gamel.py] returns only when every character code
    is below [p]; it then takes one draw [k] in [1, p - 2] per character, in
    order, and returns the pair [(g^k mod p, m * y^k mod p)] for the
    character [m]: as many pairs as characters, with both parts in
    [0, p - 1]. *)
Theorem encrypt_elgamal_shape
  (message : list Z) (keys : ElGamalCrypto.keys) (tape tape' : list Z)
  (ciphertext : list (Z * Z)) :
  ElGamalCrypto.encrypt_elgamal message keys tape = Returns (ciphertext, tape') ->
  let '(p, g, y) := (ElGamalCrypto.p keys, ElGamalCrypto.g keys, ElGamalCrypto.y keys) in
  Forall (fun m => m < p) message /\
  exists ks : list Z,
    tape = ks ++ tape' /\ length ks = length message /\
    Forall (fun k => 1 <= k <= p - 2) ks /\
    ciphertext
    = map (fun mk => (g ^ snd mk mod p, (fst mk * (y ^ snd mk mod p)) mod p))
        (combine message ks) /\
    length ciphertext = length message /\
    Forall (fun c => 0 <= fst c < p /\ 0 <= snd c < p) ciphertext.
Proof.
  unfold ElGamalCrypto.encrypt_elgamal, ElGamalCrypto.text_to_numbers.
  destruct keys as [p g y x].
  cbn [ElGamalCrypto.p ElGamalCrypto.g ElGamalCrypto.y].
  revert tape ciphertext.
  induction message as [|m rest IH]; intros tape ciphertext;
    cbn [ElGamalCrypto.encrypt_units].
  - unfold ret. intros [= <- <-]. split; [constructor|].
    exists []. repeat split; constructor.
  - destruct (Z.geb_spec m p) as [|Hm]; [discriminate|].
    rewrite bind_eq.
    destruct (Py.randint 1 (p - 2) tape) as [[k t]| |] eqn:Ek; try discriminate.
    apply randint_returns in Ek as [Hk ->].
    rewrite bind_eq. unfold lift at 1. rewrite mod_pow_returns by lia. cbn [obind].
    rewrite bind_eq. unfold lift at 1. rewrite mod_pow_returns by lia. cbn [obind].
    rewrite bind_eq. unfold lift at 1. rewrite mod_returns by lia. cbn [obind].
    rewrite bind_eq.
    destruct (ElGamalCrypto.encrypt_units rest p g y t) as [[cs t2]| |] eqn:Er;
      try discriminate.
    unfold ret. intros [= <- <-].
    destruct (IH t cs Er) as (Hall & ks & -> & Hlen & Hks & -> & Hl & Hc).
    split; [constructor; assumption|].
    exists (k :: ks). cbn [app length combine map fst snd].
    split; [reflexivity|]. split; [now rewrite Hlen|].
    split; [constructor; assumption|]. split; [reflexivity|].
    split; [now rewrite Hl|].
    constructor; [|assumption]. cbn [fst snd].
    split; apply Z.mod_pos_bound; lia.
Qed.

Lemma encrypt_elgamal_shape_witness :
  let keys := {| ElGamalCrypto.p := 1009; ElGamalCrypto.g := 11;
                 ElGamalCrypto.y := 510; ElGamalCrypto.x := 123 |} in
  ElGamalCrypto.encrypt_elgamal [72; 105] keys [5; 7; 9]
  = Returns ([(620, 386); (354, 653)], [9]) /\
  Forall (fun m => m < 1009) [72; 105] /\
  exists ks : list Z,
    [5; 7; 9] = ks ++ [9] /\ length ks = length [72; 105] /\
    Forall (fun k => 1 <= k <= 1009 - 2) ks /\
    [(620, 386); (354, 653)]
    = map (fun mk => (11 ^ snd mk mod 1009, (fst mk * (510 ^ snd mk mod 1009)) mod 1009))
        (combine [72; 105] ks) /\
    length [(620, 386); (354, 653)] = length [72; 105] /\
    Forall (fun c => 0 <= fst c < 1009 /\ 0 <= snd c < 1009) [(620, 386); (354, 653)].
Proof.
  intros keys. split; [vm_compute; reflexivity|].
  apply (encrypt_elgamal_shape [72; 105] keys [5; 7; 9] [9] [(620, 386); (354, 653)]).
  vm_compute. reflexivity.
Defined.

(** ** The first prime among the draws *)

Lemma generate_large_prime_loop_finds
  (fuel : nat) (start end_ : Z) (rejected : list Z) (num : Z) (tape' : list Z) :
  (length rejected < fuel)%nat ->
  Forall (fun v => start <= v <= end_ /\ ~ Z.prime v) rejected ->
  Z.prime num -> start <= num <= end_ ->
  RSACrypto.generate_large_prime_loop fuel start end_ (rejected ++ num :: tape')
  = Returns (num, tape').
Proof.
  intros Hfuel Hrej Hp Hr. revert fuel Hfuel.
  induction Hrej as [|v rejected [Hv Hnp] _ IH]; intros fuel Hfuel;
    (destruct fuel as [|fuel]; [cbn [length] in Hfuel; lia|]);
    cbn [RSACrypto.generate_large_prime_loop app]; rewrite bind_eq.
  - rewrite randint_draws by assumption.
    apply isprime_correct in Hp. rewrite Hp. reflexivity.
  - rewrite randint_draws by assumption.
    destruct (RSACrypto.isprime v) eqn:E.
    + apply isprime_correct in E. contradiction.
    + apply IH. cbn [length] in Hfuel. lia.
Qed.

Lemma generate_large_prime_loop_found
  (fuel : nat) (start end_ : Z) (tape tape' : list Z) (num : Z) :
  RSACrypto.generate_large_prime_loop fuel start end_ tape = Returns (num, tape') ->
  exists rejected : list Z,
    tape = rejected ++ num :: tape' /\
    Forall (fun v => start <= v <= end_ /\ ~ Z.prime v) rejected /\
    Z.prime num /\ start <= num <= end_.
Proof.
  revert tape. induction fuel as [|fuel IH]; intros tape; [discriminate|].
  cbn [RSACrypto.generate_large_prime_loop]. rewrite bind_eq.
  destruct (Py.randint start end_ tape) as [[v t]| |] eqn:Ev; try discriminate.
  apply randint_returns in Ev as [Hv ->].
  destruct (RSACrypto.isprime v) eqn:Ep.
  - unfold ret. intros [= <- <-]. apply isprime_correct in Ep.
    exists []. split; [reflexivity|]. split; [constructor|]. split; assumption.
  - intros H. apply IH in H as (rejected & -> & Hrej & Hp & Hr).
    exists (v :: rejected). split; [reflexivity|]. split; [|split; assumption].
    constructor; [|assumption]. split; [assumption|].
    intros Hpv. apply isprime_correct in Hpv. congruence.
Qed.

(** [generate_large_prime(start, end)] of [rsa (1).py] returns the first
    draw that is prime, leaving the draws after it; the draws before it are
    numbers of [start, end] that are not prime. So what it returns is a
    prime of [start, end], both ends included. *)
Theorem generate_large_prime_first
  (start end_ : Z) (tape tape' : list Z) (num : Z) :
  RSACrypto.generate_large_prime start end_ tape = Returns (num, tape') <->
  exists rejected : list Z,
    tape = rejected ++ num :: tape' /\
    Forall (fun v => start <= v <= end_ /\ ~ Z.prime v) rejected /\
    Z.prime num /\ start <= num <= end_.
Proof.
  unfold RSACrypto.generate_large_prime. split.
  - apply generate_large_prime_loop_found.
  - intros (rejected & -> & Hrej & Hp & Hr).
    apply generate_large_prime_loop_finds; try assumption.
    rewrite length_app. cbn [length]. lia.
Qed.

(** ** The generator search on any modulus *)

Lemma prime_factors_positive (n f : Z) :
  1 <= n -> In f (prime_factors n) -> 2 <= f.
Proof.
  intros Hn. unfold prime_factors, list_set.
  destruct (trial_division_spec 2 n [] ltac:(lia) ltac:(lia))
    as (n' & extra & E & Hn' & Hchar).
  { intros d Hd. lia. }
  rewrite E. cbn [app]. rewrite nodup_In. intros Hf.
  assert (Hq : Z.prime f /\ (f | n)).
  { apply Hchar. destruct (Z.ltb_spec 1 n').
    - apply in_app_iff in Hf. cbn [In] in Hf. intuition lia.
    - now left. }
  apply Z.prime_ge_2. tauto.
Qed.

Lemma first_such_returns (test : Z -> outcome bool) (l : list Z) :
  (forall x : Z, In x l -> exists b : bool, test x = Returns b) ->
  exists r : option Z,
    first_such test l = Returns r /\
    match r with Some v => In v l | None => True end.
Proof.
  intros H. destruct (first_such_total test l H) as [[v E] | [E _]].
  - exists (Some v). split; [assumption|]. now apply first_such_found in E.
  - now exists None.
Qed.

(** Neither [find_generator] ever raises, whatever the modulus. The one of
    [Elgamelsignature.py] returns 1 for [p = 2], and otherwise a number of
    [2, p - 1] or the fallback 2; the one of [gamel.py] returns a number of
    [2, p - 1] or the fallback 2, which for [p <= 2] is not below [p]. *)
Theorem find_generator_total (p : Z) :
  (exists g : Z,
     ElGamalSignature.find_generator p = Returns g /\
     (p = 2 /\ g = 1 \/ p <> 2 /\ (g = 2 \/ 2 <= g < p))) /\
  (exists g : Z,
     ElGamalCrypto.find_generator p = Returns g /\ (g = 2 \/ 2 <= g < p)) /\
  (p <= 2 -> ElGamalCrypto.find_generator p = Returns 2).
Proof.
  split; [|split].
  - unfold ElGamalSignature.find_generator.
    destruct (Z.eqb_spec p 2) as [->|Hp2]; [exists 1; auto|].
    destruct (first_such_returns (ElGamalSignature.half_order_check p) (Py.range 2 p))
      as ([v|] & E & Hin).
    + intros g Hg. apply in_range in Hg.
      unfold ElGamalSignature.half_order_check.
      rewrite pow_returns by (try lia; apply Z.div_pos; lia). cbn [obind].
      destruct (negb _); [|eauto].
      rewrite pow_returns by lia. cbn [obind]. eauto.
    + rewrite E. cbn [obind]. exists v. apply in_range in Hin. auto.
    + rewrite E. cbn [obind]. exists 2. auto.
  - unfold ElGamalCrypto.find_generator. cbv zeta.
    destruct (first_such_returns
                (fun g => ElGamalCrypto.passes_factors g (p - 1) p (prime_factors (p - 1)))
                (Py.range 2 p)) as ([v|] & E & Hin).
    + intros g Hg. apply in_range in Hg.
      rewrite passes_factors_eq; [eauto | lia | lia |].
      intros f Hf. pose proof (prime_factors_positive (p - 1) f ltac:(lia) Hf). lia.
    + rewrite E. cbn [obind]. exists v. apply in_range in Hin. auto.
    + rewrite E. cbn [obind]. exists 2. auto.
  - intros Hp. unfold ElGamalCrypto.find_generator. cbv zeta.
    unfold Py.range. replace (Z.to_nat (p - 2)) with 0%nat by lia. reflexivity.
Qed.

(** ** Text and numbers *)

